(** * Font embedding for DOM snapshots: [drilldown-webfonts.ts]

    A shallow embedding of the module that collects the font variants used
    in a DOM subtree, matches them against the document's [@font-face]
    rules, inlines the matched faces as data URLs, and memoises every stage
    in three module-level maps.

    Conventions of the embedding.
    - A JavaScript string is a [string]: a sequence of code units, of which
      the model keeps those below 256 (U+0000 .. U+00FF).  [trim],
      [toLowerCase], the whitespace class of regular expressions and the
      default ordering of [Array.prototype.sort] are written for that range.
    - A [Map<string, string>] is a [gmap string string]; a [Set<string>] is
      a [gset string].
    - An [async] function is a computation over the module state that ends
      with a value or with a thrown error; the state also records, in order,
      the URLs handed to [fetch]. *)

From Stdlib Require Import Ascii NArith.
From stdpp Require Import base decidable option list gmap strings sorting.

Local Open Scope N_scope.

(** ** String primitives of the host language *)

Module Js.

(** [WhiteSpace] and [LineTerminator] code units below 256: TAB, LF, VT, FF,
    CR, SP and NBSP.  Used by [String.prototype.trim] and by [\s]. *)
Definition isWhiteSpace (c : ascii) : bool :=
  let n := N_of_ascii c in
  (9 <=? n) && (n <=? 13) || (n =? 32) || (n =? 160).

(** The class of the two quote characters, U+0027 and U+0022, which the
    source's regular expressions write as a bracket of both. *)
Definition isQuote (c : ascii) : bool :=
  Ascii.eqb c "'"%char || Ascii.eqb c "034"%char.

(** [toLowerCase] on one code unit: A-Z, and the Latin-1 capitals U+00C0 ..
    U+00DE without the multiplication sign U+00D7. *)
Definition lowerChar (c : ascii) : ascii :=
  let n := N_of_ascii c in
  if (65 <=? n) && (n <=? 90) || (192 <=? n) && (n <=? 222) && negb (n =? 215)
  then ascii_of_N (n + 32) else c.

Fixpoint toLowerCase (s : string) : string :=
  match s with
  | "" => ""
  | String c s' => String (lowerChar c) (toLowerCase s')
  end.

(** [Canonicalize] of a case-insensitive regular expression without the
    unicode flag, as far as an ASCII pattern can observe it: a-z fold to A-Z,
    and a code unit of 128 or above never folds to one below 128. *)
Definition canonicalize (c : ascii) : ascii :=
  let n := N_of_ascii c in
  if (97 <=? n) && (n <=? 122) then ascii_of_N (n - 32) else c.

Fixpoint trimStart (s : string) : string :=
  match s with
  | "" => ""
  | String c s' => if isWhiteSpace c then trimStart s' else s
  end.

Fixpoint trimEnd (s : string) : string :=
  match s with
  | "" => ""
  | String c s' =>
      match trimEnd s' with
      | "" => if isWhiteSpace c then "" else String c ""
      | t => String c t
      end
  end.

Definition trim (s : string) : string := trimEnd (trimStart s).

(** [s.split(sep)] for a one-character separator: never the empty list. *)
Fixpoint split (sep : ascii) (s : string) : list string :=
  match s with
  | "" => [""]
  | String c s' =>
      if Ascii.eqb c sep then "" :: split sep s'
      else match split sep s' with
           | h :: t => String c h :: t
           | [] => [String c ""]
           end
  end.

(** [s.startsWith(p)], and the same up to [canonicalize]. *)
Fixpoint startsWith (p s : string) : bool :=
  match p, s with
  | "", _ => true
  | String a p', String b s' => Ascii.eqb a b && startsWith p' s'
  | String _ _, "" => false
  end.

Fixpoint startsWith_i (p s : string) : bool :=
  match p, s with
  | "", _ => true
  | String a p', String b s' =>
      Ascii.eqb (canonicalize a) (canonicalize b) && startsWith_i p' s'
  | String _ _, "" => false
  end.

(** [s.includes(needle)]. *)
Fixpoint includes (needle s : string) : bool :=
  startsWith needle s ||
  match s with
  | "" => false
  | String _ s' => includes needle s'
  end.

Fixpoint take (n : nat) (s : string) : string :=
  match n, s with
  | S n', String c s' => String c (take n' s')
  | _, _ => ""
  end.

Fixpoint drop (n : nat) (s : string) : string :=
  match n, s with
  | S n', String _ s' => drop n' s'
  | _, _ => s
  end.

(** [x || d] on strings: the empty string is the only falsy string. *)
Definition orElse (x d : string) : string :=
  match x with "" => d | _ => x end.

(** [arr.join(sep)]. *)
Definition join (sep : string) (l : list string) : string :=
  String.concat sep l.

(** [arr.sort()] on strings: ascending by code units. *)
Definition sort (l : list string) : list string :=
  merge_sort String.le l.

(** [Map.prototype.get] followed by a truthiness test, the shape of every
    cache lookup in the module: an absent key and a stored empty string are
    both a miss. *)
Definition getTruthy (m : gmap string string) (k : string) : option string :=
  match m !! k with
  | Some "" => None
  | Some v => Some v
  | None => None
  end.

End Js.

(** ** Regular expressions of the module *)

Module Regex.

(** [s.replace(/^Q|Q$/g, '')], with Q the class of the two quote
    characters: the global replace visits the string
    left to right; the first alternative can only match at index 0 and the
    second only at the last index, so one leading quote and then one
    trailing quote of what follows are removed. *)
Fixpoint dropLastQuote (s : string) : string :=
  match s with
  | "" => ""
  | String c "" => if Js.isQuote c then "" else s
  | String c s' => String c (dropLastQuote s')
  end.

Definition stripQuotes (s : string) : string :=
  match s with
  | String c s' => if Js.isQuote c then dropLastQuote s' else dropLastQuote s
  | "" => ""
  end.

(** [/^(serif|sans-serif|monospace|system-ui|ui-)/i.test(family)]. *)
Definition genericPrefixes : list string :=
  ["serif"; "sans-serif"; "monospace"; "system-ui"; "ui-"].

Definition testGeneric (family : string) : bool :=
  existsb (fun kw => Js.startsWith_i kw family) genericPrefixes.

(** A backtracking matcher for patterns that are a sequence of literals and
    greedy repetitions of a character class, which is the shape of
    the pattern [inlineFontFace] applies to [src]. *)
Inductive item :=
  | Lit (s : string)
  | Rep (cls : ascii → bool) (lo : nat) (hi : option nat) (capture : bool).

(** Length of the longest run of [cls] at the head of [s], capped by [hi]. *)
Fixpoint run (cls : ascii → bool) (hi : option nat) (s : string) : nat :=
  match hi, s with
  | Some O, _ => O
  | _, "" => O
  | _, String c s' =>
      if cls c then S (run cls (pred <$> hi) s') else O
  end.

(** Backtracking over the length of one repetition: [try k] is the rest of
    the match when the repetition takes [k] code units; lengths are tried
    from [k] downwards and never below [lo]. *)
Fixpoint backtrack {A} (try : nat → option A) (lo k : nat) : option A :=
  if (k <? lo)%nat then None
  else match try k with
       | Some r => Some r
       | None => match k with O => None | S k' => backtrack try lo k' end
       end.

(** [matchHere re s]: the captures and the number of code units consumed by
    the first successful way of matching [re] at the head of [s], trying
    longer repetitions before shorter ones. *)
Fixpoint matchHere (re : list item) (s : string) : option (list string * nat) :=
  match re with
  | [] => Some ([], O)
  | Lit l :: re' =>
      if Js.startsWith l s then
        '(caps, n) ← matchHere re' (Js.drop (String.length l) s);
        Some (caps, (String.length l + n)%nat)
      else None
  | Rep cls lo hi capture :: re' =>
      backtrack
        (λ k, '(caps, n) ← matchHere re' (Js.drop k s);
              Some (if capture then Js.take k s :: caps else caps, (k + n)%nat))
        lo (run cls hi s)
  end.

(** [Array.from(s.matchAll(re))]: matches are searched left to right, each
    search resuming where the previous match ended.  [skip] counts the code
    units of the current match still to be passed over; every match of the
    patterns used here consumes at least one code unit. *)
Fixpoint matchAllFrom (re : list item) (s : string) (skip : nat)
  : list (list string) :=
  match s with
  | "" => []
  | String _ s' =>
      match skip with
      | S k => matchAllFrom re s' k
      | O =>
          match matchHere re s with
          | Some (caps, n) => caps :: matchAllFrom re s' (pred n)
          | None => matchAllFrom re s' O
          end
      end
  end.

Definition matchAll (re : list item) (s : string) : list (list string) :=
  matchAllFrom re s O.

Definition notCloseParen (c : ascii) : bool := negb (Ascii.eqb c ")"%char).
Definition notQuote (c : ascii) : bool := negb (Js.isQuote c).

(** [/url\(([^)]+)\)\s*format\(Q?(N+)Q?\)/g], with Q the class of the two
    quote characters and N its complement. *)
Definition srcPattern : list item :=
  [ Lit "url(";
    Rep notCloseParen 1 None true;
    Lit ")";
    Rep Js.isWhiteSpace 0 None false;
    Lit "format(";
    Rep Js.isQuote 0 (Some 1%nat) false;
    Rep notQuote 1 None true;
    Rep Js.isQuote 0 (Some 1%nat) false;
    Lit ")" ].

(** The strings a pattern describes: each literal as it is, each repetition
    as a run of its class within its bounds. *)
Fixpoint allChars (P : ascii → bool) (s : string) : bool :=
  match s with
  | "" => true
  | String c s' => P c && allChars P s'
  end.

Fixpoint accepts (re : list item) (w : string) : Prop :=
  match re with
  | [] => w = ""
  | Lit l :: re' => ∃ v, w = l +:+ v ∧ accepts re' v
  | Rep cls lo hi _ :: re' =>
      ∃ x v, w = x +:+ v ∧ allChars cls x = true ∧
             (lo ≤ String.length x)%nat ∧
             (∀ h, hi = Some h → (String.length x ≤ h)%nat) ∧
             accepts re' v
  end.

End Regex.

Local Close Scope N_scope.

(** ** The hosting environment *)

(** What [getComputedStyle(el)] exposes to the collector. *)
Record ComputedStyle := {
  fontFamily : string;
  fontWeight : string;
  fontStyle : string;
}.

#[local] Set Warnings "-register-all".

(** An element node with its resolved style and its element children.  The
    tree walker is created with [NodeFilter.SHOW_ELEMENT], so other kinds of
    node never reach the collector and are left out of the tree. *)
Inductive HTMLElement :=
  | Element (cs : ComputedStyle) (children : list HTMLElement).

Definition getComputedStyle (el : HTMLElement) : ComputedStyle :=
  match el with Element cs _ => cs end.

(** The nodes a [TreeWalker] rooted at [root] yields, starting from
    [currentNode] and following [nextNode()]: the root, then its descendants
    in document order. *)
Fixpoint treeWalk (root : HTMLElement) : list HTMLElement :=
  match root with
  | Element _ children => root :: flat_map treeWalk children
  end.

(** The descriptors of a [CSSFontFaceRule] that the module reads: each field
    is what [rule.style.getPropertyValue] returns for that name, the empty
    string when the descriptor is not set. *)
Record CSSFontFaceRule := {
  font_family : string;
  font_style : string;
  font_weight : string;
  unicode_range : string;
  src : string;
}.

Inductive CSSRule :=
  | FontFaceRule (ff : CSSFontFaceRule)
  | OtherRule.

(** A style sheet either lets its [cssRules] be read or throws on access
    (a cross-origin sheet). *)
Inductive StyleSheet :=
  | Readable (rules : list CSSRule)
  | CrossOrigin.

Definition cssRules (sheet : StyleSheet) : option (list CSSRule) :=
  match sheet with
  | Readable rules => Some rules
  | CrossOrigin => None
  end.

(** [document.styleSheets]. *)
Definition Document := list StyleSheet.

(** What [fetch(url)] settles to, with the blob already run through
    [FileReader.readAsDataURL]: either the promise rejects, or a response
    arrives with its status and the data URL of its body. *)
Inductive FetchResult :=
  | Rejected
  | Response (status : N) (dataUrl : string).

(** [res.ok]: a status from 200 to 299. *)
Definition ok (status : N) : bool := ((200 <=? status) && (status <=? 299))%N.

(** The network answers a request by its URL and by the requests made before
    it, so that the same URL may be answered differently over time. *)
Definition Network := list string → string → FetchResult.

(** ** Module state and asynchronous computations *)

Record State := {
  fontDataUrlCache : gmap string string;
  inlinedFaceCache : gmap string string;
  embedCssForTriplesCache : gmap string string;
  fetchLog : list string;
}.

Definition initialState : State :=
  {| fontDataUrlCache := ∅; inlinedFaceCache := ∅;
     embedCssForTriplesCache := ∅; fetchLog := [] |}.

(** What can be thrown: the [Error] of [urlToDataUrl] for a response that is
    not [ok], with its URL and status, or the rejection of [fetch] itself. *)
Inductive Error :=
  | FetchFailed (url : string) (status : N)
  | NetworkError.

Inductive Outcome (A : Type) :=
  | Returned (a : A)
  | Thrown (e : Error).
Arguments Returned {A} a.
Arguments Thrown {A} e.

Definition Async (A : Type) : Type := State → Outcome A * State.

Definition ret {A} (a : A) : Async A := λ st, (Returned a, st).

Definition throw {A} (e : Error) : Async A := λ st, (Thrown e, st).

Definition bind {A B} (m : Async A) (k : A → Async B) : Async B :=
  λ st, match m st with
        | (Returned a, st') => k a st'
        | (Thrown e, st') => (Thrown e, st')
        end.

Notation "'await' x '<-' m ';;' k" := (bind m (λ x, k))
  (at level 100, x name, m at level 50, k at level 100, right associativity,
   format "'[v' 'await'  x  '<-'  m  ';;' '/' k ']'").
Notation "m ';;;' k" := (bind m (λ _, k))
  (at level 100, k at level 100, right associativity).

Definition get : Async State := λ st, (Returned st, st).

Definition setFontDataUrl (k v : string) : Async unit := λ st,
  (Returned (),
   {| fontDataUrlCache := <[k := v]> (fontDataUrlCache st);
      inlinedFaceCache := inlinedFaceCache st;
      embedCssForTriplesCache := embedCssForTriplesCache st;
      fetchLog := fetchLog st |}).

Definition setInlinedFace (k v : string) : Async unit := λ st,
  (Returned (),
   {| fontDataUrlCache := fontDataUrlCache st;
      inlinedFaceCache := <[k := v]> (inlinedFaceCache st);
      embedCssForTriplesCache := embedCssForTriplesCache st;
      fetchLog := fetchLog st |}).

Definition setEmbedCss (k v : string) : Async unit := λ st,
  (Returned (),
   {| fontDataUrlCache := fontDataUrlCache st;
      inlinedFaceCache := inlinedFaceCache st;
      embedCssForTriplesCache := <[k := v]> (embedCssForTriplesCache st);
      fetchLog := fetchLog st |}).

(** [await fetch(url, ...)]: the request is appended to the log and the
    network's answer for it is delivered. *)
Definition fetch (net : Network) (url : string) : Async FetchResult := λ st,
  (Returned (net (fetchLog st) url),
   {| fontDataUrlCache := fontDataUrlCache st;
      inlinedFaceCache := inlinedFaceCache st;
      embedCssForTriplesCache := embedCssForTriplesCache st;
      fetchLog := fetchLog st ++ [url] |}).

(** ** The module *)

Section Webfonts.

Variable net : Network.
Variable document : Document.

(** data URL fetch with memoization (source lines 9-24) *)
Definition urlToDataUrl (url : string) : Async string :=
  await st <- get ;;
  match Js.getTruthy (fontDataUrlCache st) url with
  | Some cached => ret cached
  | None =>
      await res <- fetch net url ;;
      match res with
      | Rejected => throw NetworkError
      | Response status dataUrl =>
          if negb (ok status) then throw (FetchFailed url status)
          else
            setFontDataUrl url dataUrl ;;;
            ret dataUrl
      end
  end.

(** 1) collect used families/weights/styles in subtree (source lines
    27-50).  [collectOne] is the body of the walker loop: it leaves the set
    alone where the source says [continue]. *)
Definition collectOne (triples : gset string) (el : HTMLElement) : gset string :=
  let cs := getComputedStyle el in
  let families :=
    map (λ s, Regex.stripQuotes (Js.trim s)) (Js.split "," (fontFamily cs)) in
  match families with
  | [] => triples
  | family :: _ =>
      if String.eqb family "" || Regex.testGeneric family then triples
      else
        let style := Js.orElse (Js.trim (Js.orElse (fontStyle cs) "normal")) "normal" in
        let weight := Js.trim (Js.orElse (fontWeight cs) "400") in
        let weight := if String.eqb weight "normal" then "400" else weight in
        let weight := if String.eqb weight "bold" then "700" else weight in
        triples ∪ {[ family +:+ "||" +:+ weight +:+ "||" +:+ style ]}
  end.

Definition collectUsedTriples (root : HTMLElement) : gset string :=
  foldl collectOne ∅ (treeWalk root).

(** 2) find matching [@font-face] rules for those triples (source lines
    53-82).  [matchOne] is the body of the inner loop. *)
Definition matchOne (want : gset string) (out : list CSSFontFaceRule)
    (rule : CSSRule) : list CSSFontFaceRule :=
  match rule with
  | OtherRule => out
  | FontFaceRule ff =>
      let family := Regex.stripQuotes (Js.trim (font_family ff)) in
      if String.eqb family "" then out
      else
        let style := Js.orElse (Js.trim (Js.orElse (font_style ff) "normal")) "normal" in
        let weight := Js.trim (Js.orElse (font_weight ff) "400") in
        let weight := if String.eqb weight "normal" then "400" else weight in
        let weight := if String.eqb weight "bold" then "700" else weight in
        let key := Js.toLowerCase (family +:+ "||" +:+ weight +:+ "||" +:+ style) in
        if bool_decide (key ∈ want) then out ++ [ff] else out
  end.

Definition getMatchingFontFaceRules (triples : gset string) : list CSSFontFaceRule :=
  let want : gset string := set_map Js.toLowerCase triples in
  foldl (λ out sheet,
           match cssRules sheet with
           | None => out
           | Some rules => foldl (matchOne want) out rules
           end) [] document.

(** The source candidates of a [src] descriptor, in listed order (source
    lines 98-104): the quotes around the reference are stripped and the
    format hint is put in lower case. *)
Record Candidate := { url : string; format : string }.

Definition candidateOf (m : list string) : Candidate :=
  {| url := Regex.stripQuotes (nth 0 m "");
     format := Js.toLowerCase (nth 1 m "") |}.

Definition parseSrc (src : string) : list Candidate :=
  map candidateOf (Regex.matchAll Regex.srcPattern src).

(** [urls.find(u => u.format.includes('woff2')) ?? urls[0]] *)
Definition pickCandidate (urls : list Candidate) : option Candidate :=
  match List.find (λ u, Js.includes "woff2" (format u)) urls with
  | Some u => Some u
  | None => head urls
  end.

(** 3) inline one [@font-face]'s src to data URL (memoized) (source lines
    85-123) *)
Definition inlineFontFace (rule : CSSFontFaceRule) : Async (option string) :=
  let family := Js.trim (font_family rule) in
  let weight := Js.trim (Js.orElse (font_weight rule) "400") in
  let style := Js.trim (Js.orElse (font_style rule) "normal") in
  let uRange := Js.trim (Js.orElse (unicode_range rule) "") in
  let cacheKey := family +:+ "||" +:+ weight +:+ "||" +:+ style +:+ "||" +:+ uRange in
  await st <- get ;;
  match Js.getTruthy (inlinedFaceCache st) cacheKey with
  | Some cached => ret (Some cached)
  | None =>
      let urls := parseSrc (src rule) in
      match pickCandidate urls with
      | None => ret None
      | Some pick =>
          await dataUrl <- urlToDataUrl (url pick) ;;
          let css :=
            "@font-face{" +:+
            "font-family:" +:+ family +:+ ";" +:+
            "font-style:" +:+ Js.orElse style "normal" +:+ ";" +:+
            "font-weight:" +:+ Js.orElse weight "400" +:+ ";" +:+
            (match uRange with
             | "" => ""
             | _ => "unicode-range:" +:+ uRange +:+ ";"
             end) +:+
            "src:url(" +:+ dataUrl +:+ ") format('woff2');" +:+
            "font-display:block;" +:+
            "}" in
          setInlinedFace cacheKey css ;;;
          ret (Some css)
      end
  end.

(** The loop of [buildFontEmbedCSS] over the matched rules (source lines
    141-144): a falsy result (null, or an empty string) is not pushed. *)
Fixpoint inlineAll (rules : list CSSFontFaceRule) (parts : list string)
  : Async (list string) :=
  match rules with
  | [] => ret parts
  | r :: rules' =>
      await css <- inlineFontFace r ;;
      inlineAll rules'
        (match css with
         | Some (String _ _ as c) => parts ++ [c]
         | _ => parts
         end)
  end.

(** [Array.from(triples).sort().join('|')]: the stable, sorted key under
    which [buildFontEmbedCSS] memoizes. *)
Definition embedKey (triples : gset string) : string :=
  Js.join "|" (Js.sort (elements triples)).

(** 4) Build the fontEmbedCSS string for only the used faces, inlined
    (memoized by triples set) (source lines 126-149) *)
Definition buildFontEmbedCSS (root : HTMLElement) : Async string :=
  let triples := collectUsedTriples root in
  if bool_decide (size triples = 0) then ret ""
  else
    let key := embedKey triples in
    await st <- get ;;
    match Js.getTruthy (embedCssForTriplesCache st) key with
    | Some cached => ret cached
    | None =>
        let rules := getMatchingFontFaceRules triples in
        await parts <- inlineAll rules [] ;;
        let result := Js.join (String "010" "") parts in
        setEmbedCss key result ;;;
        ret result
    end.

End Webfonts.

(** ** Notions used in the statements *)

(** The first family of a resolved font-family list, trimmed and with its
    quotes stripped: what the collector binds to [family]. *)
Definition firstFamily (cs : ComputedStyle) : string :=
  default "" (head (map (λ s, Regex.stripQuotes (Js.trim s))
                        (Js.split "," (fontFamily cs)))).

(** The key [inlineFontFace] builds from the rule's essential parts. *)
Definition faceCacheKey (rule : CSSFontFaceRule) : string :=
  Js.trim (font_family rule) +:+ "||" +:+
  Js.trim (Js.orElse (font_weight rule) "400") +:+ "||" +:+
  Js.trim (Js.orElse (font_style rule) "normal") +:+ "||" +:+
  Js.trim (Js.orElse (unicode_range rule) "").

(** The state after [inlinedFaceCache.set(k, v)], and after
    [embedCssForTriplesCache.set(k, v)]. *)
Definition withInlinedFace (k v : string) (st : State) : State :=
  (setInlinedFace k v st).2.

Definition withEmbedCss (k v : string) (st : State) : State :=
  (setEmbedCss k v st).2.

(** The error [urlToDataUrl] throws for a request of [u] made after the
    requests [log], if the network's answer makes it throw. *)
Definition failure (net : Network) (log : list string) (u : string)
  : option Error :=
  match net log u with
  | Rejected => Some NetworkError
  | Response status _ => if ok status then None else Some (FetchFailed u status)
  end.

(** The requests a computation adds to the log, read against the network:
    [trace net log new e] says that, starting from the log [log], the
    requests [new] were made in order, that every one of them but possibly
    the last was answered with an [ok] response, and that [e] is the error
    of the last one, if it failed. *)
Inductive trace (net : Network) : list string → list string → option Error → Prop :=
  | trace_done log : trace net log [] None
  | trace_ok log u new e :
      failure net log u = None →
      trace net (log ++ [u]) new e →
      trace net log (u :: new) e
  | trace_failed log u e :
      failure net log u = Some e →
      trace net log [u] (Some e).

Definition thrown {A} (r : Outcome A) : option Error :=
  match r with
  | Returned _ => None
  | Thrown e => Some e
  end.

(** The behaviour the specification words describe, as definitions of their
    own to compare the module with. *)
Module Spec.

(** Weight normalization: "normal" is "400", "bold" is "700", every other
    value is used as given. *)
Definition normalizeWeight (w : string) : string :=
  if decide (w = "normal") then "400"
  else if decide (w = "bold") then "700"
  else w.

(** A generic keyword family: serif, sans-serif, monospace, system-ui, or a
    name beginning with ui-. *)
Definition isGenericKeyword (family : string) : Prop :=
  family ∈ ["serif"; "sans-serif"; "monospace"; "system-ui"] ∨
  ∃ rest, family = "ui-" +:+ rest.

(** [s] begins with [kw] when letter case is ignored. *)
Definition beginsWithIgnoringCase (kw s : string) : Prop :=
  ∃ p rest, s = p +:+ rest ∧ Js.toLowerCase p = kw.


(** Candidate selection: the first candidate that has the preferred
    property, and the first candidate of all when none has it. *)
Inductive chosen {A} (preferred : A → Prop) : list A → A → Prop :=
  | chosen_preferred before c after :
      Forall (λ b, ¬ preferred b) before →
      preferred c →
      chosen preferred (before ++ c :: after) c
  | chosen_first c rest :
      Forall (λ b, ¬ preferred b) (c :: rest) →
      chosen preferred (c :: rest) c.


(** The rendered replacement rule. *)
Definition rendered (family style weight uRange dataUrl : string) : string :=
  "@font-face{font-family:" +:+ family +:+
  ";font-style:" +:+ (if decide (style = "") then "normal" else style) +:+
  ";font-weight:" +:+ (if decide (weight = "") then "400" else weight) +:+ ";" +:+
  (if decide (uRange = "") then "" else "unicode-range:" +:+ uRange +:+ ";") +:+
  "src:url(" +:+ dataUrl +:+ ") format('woff2');font-display:block;}".

(** A [src] value holds a url(...) reference followed by a format(...)
    clause: a non-empty reference without a closing parenthesis, optional
    white space, and a non-empty hint without quote characters that may be
    wrapped in quotes. *)
Definition optionalQuote (q : string) : Prop :=
  q = "" ∨ ∃ c, q = String c "" ∧ Js.isQuote c = true.

Definition urlFormatPair (src : string) : Prop :=
  ∃ pre u ws q1 f q2 post,
    src = pre +:+ "url(" +:+ u +:+ ")" +:+ ws +:+ "format(" +:+ q1 +:+ f +:+ q2 +:+ ")" +:+ post ∧
    u ≠ "" ∧ Regex.allChars Regex.notCloseParen u = true ∧
    Regex.allChars Js.isWhiteSpace ws = true ∧
    optionalQuote q1 ∧
    f ≠ "" ∧ Regex.allChars Regex.notQuote f = true ∧
    optionalQuote q2.

End Spec.

(** The variant an element contributes, if it is not skipped: family,
    normalized weight and style joined by two bars. *)
Definition elementStyle (cs : ComputedStyle) : string :=
  Js.orElse (Js.trim (Js.orElse (fontStyle cs) "normal")) "normal".

Definition elementWeight (cs : ComputedStyle) : string :=
  Spec.normalizeWeight (Js.trim (Js.orElse (fontWeight cs) "400")).

Definition variantOf (cs : ComputedStyle) : option string :=
  let family := firstFamily cs in
  if String.eqb family "" || Regex.testGeneric family then None
  else Some (family +:+ "||" +:+ elementWeight cs +:+ "||" +:+ elementStyle cs).

(** The lowercase key the matcher forms for a font-face rule, if the rule
    names a family. *)
Definition ruleFamily (ff : CSSFontFaceRule) : string :=
  Regex.stripQuotes (Js.trim (font_family ff)).

Definition ruleStyle (ff : CSSFontFaceRule) : string :=
  Js.orElse (Js.trim (Js.orElse (font_style ff) "normal")) "normal".

Definition ruleWeight (ff : CSSFontFaceRule) : string :=
  Spec.normalizeWeight (Js.trim (Js.orElse (font_weight ff) "400")).

Definition ruleKey (ff : CSSFontFaceRule) : option string :=
  if String.eqb (ruleFamily ff) "" then None
  else Some (Js.toLowerCase
               (ruleFamily ff +:+ "||" +:+ ruleWeight ff +:+ "||" +:+ ruleStyle ff)).

(** The font-face rules of the readable style sheets, in discovery order,
    and the test the matcher applies to each of them. *)
Definition facesOf (rules : list CSSRule) : list CSSFontFaceRule :=
  flat_map (λ rule, match rule with FontFaceRule ff => [ff] | OtherRule => [] end)
           rules.

Definition readableFaces (document : Document) : list CSSFontFaceRule :=
  flat_map (λ sheet, match cssRules sheet with
                     | Some rules => facesOf rules
                     | None => []
                     end) document.

Definition wanted (want : gset string) (ff : CSSFontFaceRule) : bool :=
  match ruleKey ff with
  | Some key => bool_decide (key ∈ want)
  | None => false
  end.

(** The miss branch of [buildFontEmbedCSS]: match, inline, join, store. *)
Definition rebuild (net : Network) (document : Document)
    (triples : gset string) : Async string :=
  await parts <- inlineAll net (getMatchingFontFaceRules document triples) [] ;;
  let result := Js.join (String "010" "") parts in
  setEmbedCss (embedKey triples) result ;;;
  ret result.

(** A rule that [inlineFontFace] answers with null in the state [st]: its
    key is not cached and its [src] yields no candidate. *)
Definition notInlinable (rule : CSSFontFaceRule) (st : State) : Prop :=
  Js.getTruthy (inlinedFaceCache st) (faceCacheKey rule) = None ∧
  pickCandidate (parseSrc (src rule)) = None.


(** The characters of the generic keywords. *)
Definition foldable (c : ascii) : bool :=
  existsb (Ascii.eqb c) (String.list_ascii_of_string "serifan-mopcytu").


(** ** Concrete documents *)

Definition style (family weight fstyle : string) : ComputedStyle :=
  {| fontFamily := family; fontWeight := weight; fontStyle := fstyle |}.

(** One element set in Inter, with a generic fallback. *)
Definition interRoot : HTMLElement :=
  Element (style "Inter, sans-serif" "400" "normal") [].

(** The rule of the end-to-end example: a woff source listed before a woff2
    source, no unicode-range. *)
Definition interRule : CSSFontFaceRule :=
  {| font_family := "Inter"; font_style := "normal"; font_weight := "400";
     unicode_range := "";
     src := "url(https://example/a.woff) format('woff'), url(https://example/a.woff2) format('woff2')" |}.

Definition interDocument : Document :=
  [CrossOrigin; Readable [OtherRule; FontFaceRule interRule]].

Definition interCss : string :=
  "@font-face{font-family:Inter;font-style:normal;font-weight:400;src:url(data:font/woff2;base64,https://example/a.woff2) format('woff2');font-display:block;}".

(** A network that answers every request with status 200 and a data URL
    naming the request, and one that answers every request with 404. *)
Definition echoNetwork : Network :=
  λ _ u, Response 200 ("data:font/woff2;base64," +:+ u).

Definition failingNetwork : Network := λ _ _, Response 404 "".

(** A subtree in which every element resolves to a generic family. *)
Definition sansRoot : HTMLElement :=
  Element (style "sans-serif" "400" "normal")
    [Element (style "sans-serif" "bold" "italic") [];
     Element (style "sans-serif" "400" "normal")
       [Element (style "sans-serif" "400" "normal") []]].

(** An element whose family begins with the letters of a generic keyword. *)
Definition serifaElement : HTMLElement :=
  Element (style "Serifa" "400" "normal") [].

(** Two elements whose variants differ only in letter case. *)
Definition upperStyle : ComputedStyle := style "Inter" "400" "normal".
Definition lowerStyle : ComputedStyle := style "inter" "400" "normal".

(** A bold element and a rule that declares weight 700. *)
Definition boldRoot : HTMLElement :=
  Element (style "'Inter'" "bold" "") [].

Definition boldRule : CSSFontFaceRule :=
  {| font_family := "inter"; font_style := ""; font_weight := "700";
     unicode_range := "U+0000-00FF";
     src := "url(https://example/b.woff2) format('woff2')" |}.

Definition boldDocument : Document := [Readable [FontFaceRule boldRule]].

(** A rule whose sources carry no format hint. *)
Definition noFormatRule : CSSFontFaceRule :=
  {| font_family := "Inter"; font_style := "normal"; font_weight := "400";
     unicode_range := "";
     src := "url(https://example/a.woff), url(https://example/a.ttf)" |}.

(** Two variant sets with the same result-cache key: families A and B on
    one side, and on the other the single family whose name is the text of
    that key up to its first weight. *)
Definition abRoot : HTMLElement :=
  Element (style "A" "400" "normal") [Element (style "B" "400" "normal") []].

Definition barRoot : HTMLElement :=
  Element (style "A||400||normal|B" "400" "normal") [].

Definition barRule : CSSFontFaceRule :=
  {| font_family := "A||400||normal|B"; font_style := "normal";
     font_weight := "400"; unicode_range := "";
     src := "url(https://example/ab.woff2) format('woff2')" |}.

Definition barDocument : Document := [Readable [FontFaceRule barRule]].

(** ** Notions used for the whole module *)

(** [later st st']: the state [st'] is what some sequence of calls of
    [buildFontEmbedCSS], each with its own network, style sheets and root,
    returning or throwing, makes of the state [st]. *)
Inductive later : State → State → Prop :=
  | later_now st : later st st
  | later_build st st1 st2 net document root r :
      later st st1 →
      buildFontEmbedCSS net document root st1 = (r, st2) →
      later st st2.

(** The truthy entries of a cache that are still there afterwards. *)
Definition keeps (m m' : gmap string string) : Prop :=
  ∀ k v, Js.getTruthy m k = Some v → Js.getTruthy m' k = Some v.

(** What a computation does to the state when it makes at most [n]
    requests: no cache loses a truthy entry, and the requests added to the
    log are at most [n], each for a URL that had no truthy entry in
    [fontDataUrlCache] when the computation began. *)
Definition effect (n : nat) (st st' : State) : Prop :=
  keeps (fontDataUrlCache st) (fontDataUrlCache st') ∧
  keeps (inlinedFaceCache st) (inlinedFaceCache st') ∧
  keeps (embedCssForTriplesCache st) (embedCssForTriplesCache st') ∧
  ∃ new, fetchLog st' = fetchLog st ++ new ∧
         length new ≤ n ∧
         ∀ u, u ∈ new → Js.getTruthy (fontDataUrlCache st) u = None.

(** A text that [inlineFontFace] can have rendered. *)
Definition isRendered (css : string) : Prop :=
  ∃ family fstyle weight uRange dataUrl,
    css = Spec.rendered family fstyle weight uRange dataUrl.

(** The caches hold nothing but rendered rules and joins of them. *)
Definition wellFormed (st : State) : Prop :=
  (∀ k v, inlinedFaceCache st !! k = Some v → isRendered v) ∧
  (∀ k v, embedCssForTriplesCache st !! k = Some v →
          ∃ blocks, v = Js.join (String "010" "") blocks ∧
                    Forall isRendered blocks).

(** The strings a pattern describes, together with what its capturing
    repetitions hold. *)
Fixpoint acceptsWith (re : list Regex.item) (w : string) (caps : list string)
  : Prop :=
  match re with
  | [] => w = "" ∧ caps = []
  | Regex.Lit l :: re' => ∃ v, w = l +:+ v ∧ acceptsWith re' v caps
  | Regex.Rep cls lo hi capture :: re' =>
      ∃ x v caps',
        w = x +:+ v ∧ Regex.allChars cls x = true ∧
        lo ≤ String.length x ∧
        acceptsWith re' v caps' ∧
        caps = if capture then x :: caps' else caps'
  end.

(** A [src] value as style sheets are serialized: each source a url(...)
    reference followed by one space and a format hint between two quote
    characters [q], the sources separated by a comma and a space. *)
Definition renderSource (q : ascii) (c : Candidate) : string :=
  "url(" +:+ url c +:+ ") format(" +:+ String q (format c +:+ String q ")").

Definition renderSrc (q : ascii) (sources : list Candidate) : string :=
  Js.join ", " (map (renderSource q) sources).

(** A source whose reference is not empty and has no closing parenthesis,
    and whose hint is not empty and has no quote character. *)
Definition plainSource (c : Candidate) : Prop :=
  url c ≠ "" ∧ Regex.allChars Regex.notCloseParen (url c) = true ∧
  format c ≠ "" ∧ Regex.allChars Regex.notQuote (format c) = true.

(** ** Further concrete documents *)

(** A second rule for the family, weight and style of [interRule], with
    another source. *)
Definition interFallbackRule : CSSFontFaceRule :=
  {| font_family := "Inter"; font_style := "normal"; font_weight := "400";
     unicode_range := "";
     src := "url(https://example/other.woff) format('woff')" |}.

Definition twoSources : list Candidate :=
  [ {| url := "https://example/a.woff"; format := "woff" |};
    {| url := "https://example/a.woff2"; format := "WOFF2" |} ].

Definition leafA : HTMLElement := Element (style "A" "400" "normal") [].
Definition leafB : HTMLElement := Element (style "B" "bold" "italic") [].


(** A style sheet in which a rule without format hints follows a rule with
    the same family, weight, style and unicode-range that can be inlined. *)
Definition siblingDocument : Document :=
  [Readable [FontFaceRule interRule; FontFaceRule noFormatRule]].

(** * Properties *)

Ltac async :=
  unfold bind, get, ret, throw, fetch, setFontDataUrl, setInlinedFace,
    setEmbedCss, withInlinedFace, withEmbedCss in *; simpl in *.


(** ** Computations over the module state *)

Lemma getTruthy_Some m k v :
  Js.getTruthy m k = Some v → m !! k = Some v ∧ v ≠ "".
Proof.
  unfold Js.getTruthy. destruct (m !! k) as [[|c w]|]; [done| |done].
  intros [= <-]. done.
Qed.

Lemma getTruthy_insert m k v :
  v ≠ "" → Js.getTruthy (<[k := v]> m) k = Some v.
Proof.
  intros Hv. unfold Js.getTruthy. rewrite lookup_insert_eq.
  destruct v; done.
Qed.

Lemma getTruthy_insert_empty m k k' :
  Js.getTruthy m k = None → Js.getTruthy (<[k := ""]> m) k' = Js.getTruthy m k'.
Proof.
  unfold Js.getTruthy. intros Hk.
  destruct (decide (k = k')) as [<-|Hne].
  - rewrite lookup_insert_eq. destruct (m !! k) as [[|]|]; done.
  - by rewrite lookup_insert_ne.
Qed.

(** The proof-friendly reading of [inlineFontFace]. *)
Lemma inlineFontFace_eq net rule st :
  inlineFontFace net rule st =
  match Js.getTruthy (inlinedFaceCache st) (faceCacheKey rule) with
  | Some cached => (Returned (Some cached), st)
  | None =>
      match pickCandidate (parseSrc (src rule)) with
      | None => (Returned None, st)
      | Some pick =>
          match urlToDataUrl net (url pick) st with
          | (Returned dataUrl, st1) =>
              let css :=
                "@font-face{" +:+
                "font-family:" +:+ Js.trim (font_family rule) +:+ ";" +:+
                "font-style:" +:+
                  Js.orElse (Js.trim (Js.orElse (font_style rule) "normal")) "normal" +:+ ";" +:+
                "font-weight:" +:+
                  Js.orElse (Js.trim (Js.orElse (font_weight rule) "400")) "400" +:+ ";" +:+
                (match Js.trim (Js.orElse (unicode_range rule) "") with
                 | "" => ""
                 | _ => "unicode-range:" +:+ Js.trim (Js.orElse (unicode_range rule) "") +:+ ";"
                 end) +:+
                "src:url(" +:+ dataUrl +:+ ") format('woff2');" +:+
                "font-display:block;" +:+ "}" in
              (Returned (Some css), withInlinedFace (faceCacheKey rule) css st1)
          | (Thrown e, st1) => (Thrown e, st1)
          end
      end
  end.
Proof.
  unfold inlineFontFace, faceCacheKey. async.
  destruct (Js.getTruthy _ _); [done|].
  destruct (pickCandidate _); [|done].
  destruct (urlToDataUrl _ _ _) as [[d|e] st1]; done.
Qed.

Lemma buildFontEmbedCSS_eq net document root st :
  buildFontEmbedCSS net document root st =
  if bool_decide (size (collectUsedTriples root) = 0) then (Returned "", st)
  else match Js.getTruthy (embedCssForTriplesCache st)
               (embedKey (collectUsedTriples root)) with
       | Some cached => (Returned cached, st)
       | None => rebuild net document (collectUsedTriples root) st
       end.
Proof.
  unfold buildFontEmbedCSS, rebuild. case_bool_decide; [done|]. async.
  destruct (Js.getTruthy _ _); done.
Qed.

Lemma rebuild_eq net document triples st :
  rebuild net document triples st =
  match inlineAll net (getMatchingFontFaceRules document triples) [] st with
  | (Returned parts, st1) =>
      (Returned (Js.join (String "010" "") parts),
       withEmbedCss (embedKey triples) (Js.join (String "010" "") parts) st1)
  | (Thrown e, st1) => (Thrown e, st1)
  end.
Proof.
  unfold rebuild. async. destruct (inlineAll _ _ _ _) as [[parts|e] st1]; done.
Qed.

(** *** Footprints: what each computation may change *)

Lemma trace_app net log new1 new2 e :
  trace net log new1 None →
  trace net (log ++ new1) new2 e →
  trace net log (new1 ++ new2) e.
Proof.
  intros H1. remember None as none eqn:Hnone. revert Hnone new2 e.
  induction H1 as [log|log u new e1 Hu H1 IH|log u e1 Hu]; intros Hnone new2 e H2.
  - by rewrite app_nil_r in H2.
  - simpl. apply trace_ok; [done|]. apply IH; [done|].
    by rewrite <- app_assoc.
  - done.
Qed.

Lemma urlToDataUrl_footprint net u st r st' :
  urlToDataUrl net u st = (r, st') →
  inlinedFaceCache st' = inlinedFaceCache st ∧
  embedCssForTriplesCache st' = embedCssForTriplesCache st ∧
  ∃ new, fetchLog st' = fetchLog st ++ new ∧
         trace net (fetchLog st) new (thrown r).
Proof.
  unfold urlToDataUrl. async.
  destruct (Js.getTruthy _ _) as [cached|].
  - intros [= <- <-]. repeat split; [].
    exists []. rewrite app_nil_r. split; [done|constructor].
  - destruct (net (fetchLog st) u) as [|status d] eqn:Hnet.
    + intros [= <- <-]. simpl. repeat split; [].
      exists [u]. split; [done|]. apply trace_failed.
      unfold failure. by rewrite Hnet.
    + destruct (ok status) eqn:Hok; simpl; intros [= <- <-]; simpl;
        (repeat split; []); exists [u]; (split; [done|]).
      * apply trace_ok; [|constructor]. unfold failure. by rewrite Hnet, Hok.
      * apply trace_failed. unfold failure. by rewrite Hnet, Hok.
Qed.

Lemma inlineFontFace_footprint net rule st r st' :
  inlineFontFace net rule st = (r, st') →
  embedCssForTriplesCache st' = embedCssForTriplesCache st ∧
  ∃ new, fetchLog st' = fetchLog st ++ new ∧
         trace net (fetchLog st) new (thrown r).
Proof.
  rewrite inlineFontFace_eq.
  assert (Hnil : ∀ o : option string,
    embedCssForTriplesCache st = embedCssForTriplesCache st ∧
    ∃ new, fetchLog st = fetchLog st ++ new ∧
           trace net (fetchLog st) new (thrown (Returned o))).
  { intros o. split; [done|]. exists []. rewrite app_nil_r.
    split; [done|constructor]. }
  destruct (Js.getTruthy _ _) as [cached|]; [intros [= <- <-]; apply Hnil|].
  destruct (pickCandidate _) as [pick|]; [|intros [= <- <-]; apply Hnil].
  destruct (urlToDataUrl net (url pick) st) as [[d|e] st1] eqn:Hu;
    apply urlToDataUrl_footprint in Hu as (_ & Hemb & new & Hlog & Htr);
    intros [= <- <-]; simpl; (split; [done|]); by exists new.
Qed.

Lemma inlineAll_footprint net rules : ∀ parts st r st',
  inlineAll net rules parts st = (r, st') →
  embedCssForTriplesCache st' = embedCssForTriplesCache st ∧
  ∃ new, fetchLog st' = fetchLog st ++ new ∧
         trace net (fetchLog st) new (thrown r).
Proof.
  induction rules as [|rule rules IH]; intros parts st r st'; simpl.
  - intros [= <- <-]. split; [done|]. exists []. rewrite app_nil_r.
    split; [done|constructor].
  - unfold bind at 1.
    destruct (inlineFontFace net rule st) as [[css|e] st1] eqn:H1;
      apply inlineFontFace_footprint in H1 as (Hemb1 & new1 & Hlog1 & Htr1).
    + intros H2. apply IH in H2 as (Hemb2 & new2 & Hlog2 & Htr2).
      split; [congruence|]. exists (new1 ++ new2).
      split; [rewrite Hlog2, Hlog1; by rewrite app_assoc|].
      apply trace_app; [done|]. by rewrite <- Hlog1.
    + intros [= <- <-]. split; [done|]. by exists new1.
Qed.

Lemma trace_failure_last net log new e :
  trace net log new e →
  ∀ pre u post err,
    new = pre ++ u :: post →
    failure net (log ++ pre) u = Some err →
    post = [] ∧ e = Some err.
Proof.
  induction 1 as [log|log u0 new e Hu0 Htr IH|log u0 e Hu0];
    intros pre u post err Hnew Hfail.
  - by destruct pre.
  - destruct pre as [|p pre]; simplify_eq/=.
    + rewrite app_nil_r in Hfail. congruence.
    + eapply IH; [done|]. by rewrite <- app_assoc.
  - destruct pre as [|p pre]; simplify_eq/=.
    + rewrite app_nil_r in Hfail. split; [done|congruence].
    + by destruct pre.
Qed.

Lemma buildFontEmbedCSS_footprint net document root st r st' :
  buildFontEmbedCSS net document root st = (r, st') →
  (∃ new, fetchLog st' = fetchLog st ++ new ∧
          trace net (fetchLog st) new (thrown r)) ∧
  (∀ e, r = Thrown e →
        embedCssForTriplesCache st' = embedCssForTriplesCache st).
Proof.
  rewrite buildFontEmbedCSS_eq.
  assert (Hnil : ∀ out : string,
    (∃ new, fetchLog st = fetchLog st ++ new ∧
            trace net (fetchLog st) new (thrown (Returned out))) ∧
    (∀ e, Returned out = Thrown e →
          embedCssForTriplesCache st = embedCssForTriplesCache st)).
  { intros out. split; [|done]. exists []. rewrite app_nil_r.
    split; [done|constructor]. }
  case_bool_decide; [intros [= <- <-]; apply Hnil|].
  destruct (Js.getTruthy _ _) as [cached|]; [intros [= <- <-]; apply Hnil|].
  rewrite rebuild_eq.
  destruct (inlineAll _ _ _ _) as [[parts|e] st1] eqn:Hall;
    apply inlineAll_footprint in Hall as (Hemb & new & Hlog & Htr);
    intros [= <- <-]; simpl.
  - split; [by exists new|done].
  - split; [by exists new|done].
Qed.

(** *** When a rule yields nothing *)

Lemma inlineFontFace_notInlinable net rule st :
  notInlinable rule st → inlineFontFace net rule st = (Returned None, st).
Proof. intros [Hc Hp]. rewrite inlineFontFace_eq. by rewrite Hc, Hp. Qed.

Lemma inlineFontFace_None net rule st st' :
  inlineFontFace net rule st = (Returned None, st') →
  st' = st ∧ notInlinable rule st.
Proof.
  rewrite inlineFontFace_eq. unfold notInlinable.
  destruct (Js.getTruthy _ _) as [cached|]; [done|].
  destruct (pickCandidate _) as [pick|]; [|by intros [= <-]].
  by destruct (urlToDataUrl _ _ _) as [[d|e] st1].
Qed.

Lemma inlineFontFace_Some net rule st css st' :
  inlineFontFace net rule st = (Returned (Some css), st') → css ≠ "".
Proof.
  rewrite inlineFontFace_eq.
  destruct (Js.getTruthy _ _) as [cached|] eqn:Hc.
  { intros [= <- <-]. by apply getTruthy_Some in Hc as [_ ?]. }
  destruct (pickCandidate _) as [pick|]; [|done].
  destruct (urlToDataUrl _ _ _) as [[d|e] st1]; [|done].
  by intros [= <- <-].
Qed.

Lemma inlineAll_notInlinable net rules parts st :
  Forall (λ r, notInlinable r st) rules →
  inlineAll net rules parts st = (Returned parts, st).
Proof.
  induction 1 as [|rule rules Hr _ IH]; simpl; [done|].
  unfold bind. by rewrite (inlineFontFace_notInlinable _ _ _ Hr).
Qed.

Lemma inlineAll_Returned net rules : ∀ parts st ps st',
  inlineAll net rules parts st = (Returned ps, st') →
  ∃ new, ps = parts ++ new ∧ Forall (λ p, p ≠ "") new ∧
         (new = [] → st' = st ∧ Forall (λ r, notInlinable r st) rules).
Proof.
  induction rules as [|rule rules IH]; intros parts st ps st'; simpl.
  - intros [= <- <-]. exists []. by rewrite app_nil_r.
  - unfold bind at 1.
    destruct (inlineFontFace net rule st) as [[[css|]|e] st1] eqn:H1; [| |done].
    + pose proof (inlineFontFace_Some _ _ _ _ _ H1) as Hne.
      destruct css as [|c css]; [done|].
      intros (new & -> & Hall & _)%IH. exists (String c css :: new).
      rewrite <- app_assoc. split; [done|]. split; [by constructor|done].
    + apply inlineFontFace_None in H1 as [-> Hr].
      intros (new & -> & Hall & Hnil)%IH. exists new.
      split; [done|]. split; [done|]. intros Hnew.
      destruct (Hnil Hnew) as [-> Hrules]. split; [done|]. by constructor.
Qed.

Lemma join_empty sep parts :
  Forall (λ p, p ≠ "") parts → Js.join sep parts = "" → parts = [].
Proof.
  destruct 1 as [|p parts Hp _]; [done|]. unfold Js.join. simpl.
  destruct p as [|c p]; [done|]. by destruct parts.
Qed.

Lemma notInlinable_same_cache rule st st' :
  inlinedFaceCache st' = inlinedFaceCache st →
  notInlinable rule st → notInlinable rule st'.
Proof. unfold notInlinable. by intros ->. Qed.

(** A build that stored the empty string leaves a state in which repeating
    the miss branch for the same variants changes nothing. *)
Lemma rebuild_again net net' document triples st st' :
  Js.getTruthy (embedCssForTriplesCache st) (embedKey triples) = None →
  rebuild net document triples st = (Returned "", st') →
  Js.getTruthy (embedCssForTriplesCache st') (embedKey triples) = None ∧
  rebuild net' document triples st' = (Returned "", st').
Proof.
  intros Hmiss. rewrite !rebuild_eq.
  destruct (inlineAll net _ _ st) as [[parts|e] st1] eqn:Hall; [|done].
  apply inlineAll_Returned in Hall as (new & -> & Hne & Hnil). simpl in *.
  intros [= Hjoin <-]. rewrite Hjoin.
  apply join_empty in Hjoin as ->; [|done].
  destruct (Hnil eq_refl) as [-> Hrules]. split.
  - unfold withEmbedCss, setEmbedCss. simpl.
    by rewrite getTruthy_insert_empty.
  - rewrite inlineAll_notInlinable.
    + simpl. unfold withEmbedCss, setEmbedCss. simpl.
      by rewrite insert_insert_eq.
    + eapply Forall_impl; [exact Hrules|]. intros r.
      by apply notInlinable_same_cache.
Qed.

Lemma size_zero_empty (X : gset string) : size X = 0 ↔ X = ∅.
Proof. rewrite size_empty_iff. by unfold_leibniz. Qed.

(** ** Idempotence of the builder *)

(** C1. Calling [buildFontEmbedCSS] a second time on the same subtree, with
    the style sheets unchanged, after a first call that returned [out],
    returns [out] again and leaves the whole module state as it was:
    nothing is added to the log of requests, whatever the network would
    answer by then. *)
Theorem buildFontEmbedCSS_idempotent net net' document root st out st' :
  buildFontEmbedCSS net document root st = (Returned out, st') →
  buildFontEmbedCSS net' document root st' = (Returned out, st').
Proof.
  rewrite !buildFontEmbedCSS_eq.
  case_bool_decide; [by intros [= <- <-]|].
  destruct (Js.getTruthy (embedCssForTriplesCache st) _) as [cached|] eqn:Hc.
  { intros [= <- <-]. by rewrite Hc. }
  destruct out as [|c out].
  - intros Hre. by destruct (rebuild_again _ net' _ _ _ _ Hc Hre) as [-> ->].
  - rewrite rebuild_eq.
    destruct (inlineAll _ _ _ _) as [[parts|e] st1]; [|done].
    intros [= Hout <-]. rewrite Hout. unfold withEmbedCss, setEmbedCss. simpl.
    by rewrite getTruthy_insert.
Qed.

(** ** Failure of a fetch *)

Lemma urlToDataUrl_throws net u st status dataUrl :
  Js.getTruthy (fontDataUrlCache st) u = None →
  net (fetchLog st) u = Response status dataUrl →
  ok status = false →
  ∃ st', urlToDataUrl net u st = (Thrown (FetchFailed u status), st') ∧
         fontDataUrlCache st' = fontDataUrlCache st.
Proof.
  intros Hc Hnet Hok. unfold urlToDataUrl. async.
  rewrite Hc, Hnet, Hok. simpl. eauto.
Qed.

Lemma inlineFontFace_propagates net rule st pick e st' :
  Js.getTruthy (inlinedFaceCache st) (faceCacheKey rule) = None →
  pickCandidate (parseSrc (src rule)) = Some pick →
  urlToDataUrl net (url pick) st = (Thrown e, st') →
  inlineFontFace net rule st = (Thrown e, st').
Proof. intros Hc Hp Hu. rewrite inlineFontFace_eq. by rewrite Hc, Hp, Hu. Qed.

Lemma inlineAll_propagates net rule rules parts st e st' :
  inlineFontFace net rule st = (Thrown e, st') →
  inlineAll net (rule :: rules) parts st = (Thrown e, st').
Proof. intros H. simpl. unfold bind. by rewrite H. Qed.

(** C2. If, during a call of [buildFontEmbedCSS], a request for [u] is
    answered with a status that is not a success, the call ends by throwing
    the fetch error for [u] and that status: it returns no CSS, stores
    nothing in the result cache, and makes no request after the failed one,
    neither a retry nor a fetch for a later rule. *)
Theorem fetch_failure_aborts_build
    net document root st r st' pre u post status dataUrl :
  buildFontEmbedCSS net document root st = (r, st') →
  fetchLog st' = fetchLog st ++ pre ++ u :: post →
  net (fetchLog st ++ pre) u = Response status dataUrl →
  ok status = false →
  r = Thrown (FetchFailed u status) ∧
  post = [] ∧
  embedCssForTriplesCache st' = embedCssForTriplesCache st.
Proof.
  intros Hb Hlog Hnet Hok.
  apply buildFontEmbedCSS_footprint in Hb as [(new & Hnew & Htr) Hemb].
  rewrite Hnew in Hlog. apply app_inv_head in Hlog.
  assert (Hfail : failure net (fetchLog st ++ pre) u = Some (FetchFailed u status)).
  { unfold failure. by rewrite Hnet, Hok. }
  destruct (trace_failure_last _ _ _ _ Htr _ _ _ _ Hlog Hfail) as [-> Hthrown].
  destruct r as [out|e]; simplify_eq/=. eauto.
Qed.

(** ** Subtrees without embeddable variants *)

(** C8. When the collected variant set is empty, [buildFontEmbedCSS]
    returns the empty string and leaves the module state as it found it,
    for every state of the caches, every set of style sheets and every
    network: no cache is consulted or written, no rule is scanned, nothing
    is fetched. *)
Theorem no_variants_no_work net document root st :
  collectUsedTriples root = ∅ →
  buildFontEmbedCSS net document root st = (Returned "", st).
Proof.
  intros Hempty. rewrite buildFontEmbedCSS_eq, Hempty.
  by rewrite bool_decide_eq_true_2 by apply size_empty.
Qed.

(** ** Facts about strings *)

Section StringFacts.

Implicit Types (s t p : string) (c : ascii) (n k : nat).

Lemma sapp_cons c s t : String c s +:+ t = String c (s +:+ t).
Proof. done. Qed.

Lemma sapp_nil_l s : "" +:+ s = s.
Proof. done. Qed.

Lemma sapp_nil_r s : s +:+ "" = s.
Proof. induction s as [|c s IH]; [done|]. by rewrite sapp_cons, IH. Qed.

Lemma sapp_assoc s t p : (s +:+ t) +:+ p = s +:+ t +:+ p.
Proof. induction s as [|c s IH]; [done|]. by rewrite !sapp_cons, IH. Qed.

Lemma sapp_eq_nil s t : s +:+ t = "" → s = "" ∧ t = "".
Proof. destruct s; [by rewrite sapp_nil_l|by rewrite sapp_cons]. Qed.

Lemma length_sapp s t :
  String.length (s +:+ t) = String.length s + String.length t.
Proof. induction s as [|c s IH]; [done|]. rewrite sapp_cons. simpl. by rewrite IH. Qed.

Lemma take_drop n s : Js.take n s +:+ Js.drop n s = s.
Proof.
  revert s. induction n as [|n IH]; intros [|c s]; try done.
  simpl. by rewrite sapp_cons, IH.
Qed.

Lemma take_add k n s :
  Js.take (k + n) s = Js.take k s +:+ Js.take n (Js.drop k s).
Proof.
  revert s. induction k as [|k IH]; intros s; simpl; [done|].
  destruct s as [|c s]; [by destruct n|]. by rewrite sapp_cons, IH.
Qed.

Lemma take_app_length s t : Js.take (String.length s) (s +:+ t) = s.
Proof.
  induction s as [|c s IH]; [by destruct t|].
  rewrite sapp_cons. simpl. by rewrite IH.
Qed.

Lemma drop_app_length s t : Js.drop (String.length s) (s +:+ t) = t.
Proof. induction s as [|c s IH]; [by destruct t|]. by rewrite sapp_cons. Qed.

Lemma eqb_true c1 c2 : Ascii.eqb c1 c2 = true ↔ c1 = c2.
Proof. apply Ascii.eqb_eq. Qed.

Lemma startsWith_spec p s :
  Js.startsWith p s = true ↔ ∃ rest, s = p +:+ rest.
Proof.
  revert s. induction p as [|a p IH]; intros s; simpl.
  - split; [by exists s|done].
  - destruct s as [|b s]; [split; [done|by intros [? ?]]|].
    rewrite andb_true_iff, eqb_true, IH. split.
    + intros [-> [rest ->]]. by exists rest.
    + intros [rest Heq]. rewrite sapp_cons in Heq. simplify_eq. eauto.
Qed.

Lemma startsWith_drop p s :
  Js.startsWith p s = true → s = p +:+ Js.drop (String.length p) s.
Proof.
  intros [rest ->]%startsWith_spec. by rewrite drop_app_length.
Qed.


Lemma toLowerCase_app s t :
  Js.toLowerCase (s +:+ t) = Js.toLowerCase s +:+ Js.toLowerCase t.
Proof. induction s as [|c s IH]; [done|]. rewrite !sapp_cons. simpl. by rewrite IH. Qed.


Lemma lowerChar_idemp c : Js.lowerChar (Js.lowerChar c) = Js.lowerChar c.
Proof. by destruct c as [[] [] [] [] [] [] [] []]. Qed.

Lemma toLowerCase_idemp s : Js.toLowerCase (Js.toLowerCase s) = Js.toLowerCase s.
Proof. induction s as [|c s IH]; [done|]. simpl. by rewrite lowerChar_idemp, IH. Qed.

Lemma toLowerCase_nil s : Js.toLowerCase s = "" ↔ s = "".
Proof. by destruct s. Qed.


End StringFacts.

(** ** The pattern matcher *)

Section Matcher.

Implicit Types (s t w : string) (re : list Regex.item).

Lemma backtrack_Some {A} (try : nat → option A) lo k r :
  Regex.backtrack try lo k = Some r → ∃ j, lo ≤ j ≤ k ∧ try j = Some r.
Proof.
  induction k as [|k IH]; simpl.
  - destruct lo; simpl; [|done]. destruct (try 0) eqn:H0; [|done].
    intros [= <-]. exists 0. split; [lia|done].
  - destruct (S k <? lo) eqn:Hlo; [done|]. apply Nat.ltb_ge in Hlo.
    destruct (try (S k)) eqn:HS.
    + intros [= <-]. exists (S k). split; [lia|done].
    + intros (j & Hj & Htry)%IH. exists j. split; [lia|done].
Qed.

Lemma backtrack_complete {A} (try : nat → option A) lo k j :
  lo ≤ j ≤ k → is_Some (try j) → is_Some (Regex.backtrack try lo k).
Proof.
  intros Hj Htry. induction k as [|k IH]; simpl.
  - assert (j = 0) as -> by lia. assert (lo = 0) as -> by lia. simpl.
    destruct (try 0); [done|by destruct Htry].
  - destruct (S k <? lo) eqn:Hlo; [apply Nat.ltb_lt in Hlo; lia|].
    destruct (try (S k)) eqn:HS; [done|].
    destruct (decide (j = S k)) as [->|Hne].
    + rewrite HS in Htry. by destruct Htry.
    + apply IH. lia.
Qed.

Lemma run_take cls hi s k :
  k ≤ Regex.run cls hi s →
  Regex.allChars cls (Js.take k s) = true ∧
  String.length (Js.take k s) = k ∧
  (∀ h, hi = Some h → k ≤ h).
Proof.
  revert hi s. induction k as [|k IH]; intros hi s Hk.
  - split; [by destruct s|]. split; [by destruct s|]. intros; lia.
  - destruct s as [|c s]; [destruct hi as [[|h]|]; simpl in Hk; lia|].
    assert (Hstep : cls c = true ∧ k ≤ Regex.run cls (pred <$> hi) s ∧
                    ∀ h, hi = Some h → 0 < h).
    { destruct hi as [[|h]|]; simpl in Hk; [lia| |];
        destruct (cls c); simpl in *; try lia;
        (split; [done|]); (split; [lia|]); intros; simplify_eq; lia. }
    destruct Hstep as (Hc & Hrun & Hpos).
    destruct (IH _ _ Hrun) as (Hall & Hlen & Hhi). simpl.
    rewrite Hc, Hall, Hlen. split; [done|]. split; [done|].
    intros h ->. specialize (Hpos _ eq_refl).
    specialize (Hhi (pred h) eq_refl). lia.
Qed.

Lemma run_app cls hi x rest :
  Regex.allChars cls x = true →
  (∀ h, hi = Some h → String.length x ≤ h) →
  String.length x ≤ Regex.run cls hi (x +:+ rest).
Proof.
  revert hi. induction x as [|c x IH]; intros hi Hall Hhi; simpl; [lia|].
  simpl in Hall. apply andb_true_iff in Hall as [Hc Hall].
  rewrite ?sapp_cons.
  destruct hi as [[|h]|]; simpl.
  - specialize (Hhi 0 eq_refl). simpl in Hhi. lia.
  - rewrite Hc. apply le_n_S, IH; [done|].
    intros h' [= <-]. specialize (Hhi _ eq_refl). simpl in Hhi. lia.
  - rewrite Hc. by apply le_n_S, IH.
Qed.

(** Soundness: what [matchHere] consumes is a string of the pattern. *)
Lemma matchHere_sound re : ∀ s caps n,
  Regex.matchHere re s = Some (caps, n) → Regex.accepts re (Js.take n s).
Proof.
  induction re as [|[l|cls lo hi capture] re IH]; intros s caps n; simpl.
  - intros [= <- <-]. by destruct s.
  - destruct (Js.startsWith l s) eqn:Hl; [|done].
    destruct (Regex.matchHere re _) as [[caps' n']|] eqn:Hre; [|done].
    simpl. intros [= <- <-]. apply IH in Hre.
    exists (Js.take n' (Js.drop (String.length l) s)). split; [|done].
    rewrite take_add. f_equal.
    rewrite (startsWith_drop _ _ Hl) at 1. apply take_app_length.
  - intros (j & [Hlo Hj] & Htry)%backtrack_Some.
    destruct (Regex.matchHere re _) as [[caps' n']|] eqn:Hre; [|done].
    simpl in Htry. injection Htry as _ <-. apply IH in Hre.
    destruct (run_take _ _ _ _ Hj) as (Hall & Hlen & Hhi).
    exists (Js.take j s), (Js.take n' (Js.drop j s)).
    rewrite Hlen. split; [apply take_add|done].
Qed.

(** Completeness: a string of the pattern at the head of [s] is matched,
    possibly in another way that the matcher tries earlier. *)
Lemma matchHere_complete re : ∀ w rest,
  Regex.accepts re w → is_Some (Regex.matchHere re (w +:+ rest)).
Proof.
  induction re as [|[l|cls lo hi capture] re IH]; intros w rest; simpl.
  - done.
  - intros (v & -> & Hv). rewrite sapp_assoc.
    rewrite (proj2 (startsWith_spec _ _)) by eauto.
    rewrite drop_app_length.
    destruct (IH _ rest Hv) as [[caps n] ->]. done.
  - intros (x & v & -> & Hall & Hlo & Hhi & Hv). rewrite sapp_assoc.
    apply (backtrack_complete _ _ _ (String.length x)).
    + split; [done|]. by apply run_app.
    + rewrite drop_app_length.
      destruct (IH _ rest Hv) as [[caps n] ->]. done.
Qed.

Lemma matchAllFrom_cons re : ∀ s skip,
  Regex.matchAllFrom re s skip ≠ [] →
  ∃ pre t caps n, s = pre +:+ t ∧ Regex.matchHere re t = Some (caps, n).
Proof.
  induction s as [|c s IH]; intros skip; simpl; [done|].
  destruct skip as [|skip].
  - destruct (Regex.matchHere re (String c s)) as [[caps n]|] eqn:Hre.
    + intros _. by exists "", (String c s), caps, n.
    + intros (pre & t & caps & n & -> & Ht)%IH.
      by exists (String c pre), t, caps, n.
  - intros (pre & t & caps & n & -> & Ht)%IH.
    by exists (String c pre), t, caps, n.
Qed.

Lemma matchAllFrom_nil re : ∀ pre t,
  t ≠ "" →
  is_Some (Regex.matchHere re t) →
  Regex.matchAllFrom re (pre +:+ t) 0 ≠ [].
Proof.
  induction pre as [|c pre IH]; intros t Ht Hre.
  - rewrite sapp_nil_l. destruct t as [|c t]; [done|]. simpl.
    destruct Hre as [[caps n] ->]. done.
  - rewrite sapp_cons. simpl.
    destruct (Regex.matchHere re (String c _)) as [[caps n]|]; [done|].
    by apply IH.
Qed.

Lemma optionalQuote_spec q :
  Regex.allChars Js.isQuote q = true →
  (∀ h, Some 1 = Some h → String.length q ≤ h) →
  Spec.optionalQuote q.
Proof.
  intros Hall Hlen. specialize (Hlen 1 eq_refl).
  destruct q as [|c [|c' q]]; simpl in *; [by left| |lia].
  right. exists c. by rewrite andb_true_r in Hall.
Qed.

Lemma length_pos_ne s : 1 ≤ String.length s → s ≠ "".
Proof. destruct s; simpl; [lia|done]. Qed.

(** The pattern of [inlineFontFace] describes exactly the url-format pairs
    of the specification. *)
Lemma srcPattern_accepts w :
  Regex.accepts Regex.srcPattern w ↔
  ∃ u ws q1 f q2,
    w = "url(" +:+ u +:+ ")" +:+ ws +:+ "format(" +:+ q1 +:+ f +:+ q2 +:+ ")" ∧
    u ≠ "" ∧ Regex.allChars Regex.notCloseParen u = true ∧
    Regex.allChars Js.isWhiteSpace ws = true ∧
    Spec.optionalQuote q1 ∧
    f ≠ "" ∧ Regex.allChars Regex.notQuote f = true ∧
    Spec.optionalQuote q2.
Proof.
  unfold Regex.srcPattern. simpl. split.
  - intros (v1 & -> & u & v2 & -> & Hu & Hulen & _ & v3 & -> &
            ws & v4 & -> & Hws & _ & _ & v5 & -> &
            q1 & v6 & -> & Hq1 & _ & Hq1len & f & v7 & -> & Hf & Hflen & _ &
            q2 & v8 & -> & Hq2 & _ & Hq2len & v9 & -> & ->).
    exists u, ws, q1, f, q2.
    repeat split; auto using optionalQuote_spec, length_pos_ne.
  - intros (u & ws & q1 & f & q2 & -> & Hu & Hup & Hws & Hq1 & Hf & Hfq & Hq2).
    assert (Hquote : ∀ q, Spec.optionalQuote q →
              Regex.allChars Js.isQuote q = true ∧
              (∀ h, Some 1 = Some h → String.length q ≤ h)).
    { intros q [->|(c & -> & Hc)]; simpl.
      - split; [done|]. intros h [= <-]. lia.
      - rewrite Hc. split; [done|]. by intros h [= <-]. }
    destruct (Hquote _ Hq1) as [? ?]. destruct (Hquote _ Hq2) as [? ?].
    assert (Hlen : ∀ s, s ≠ "" → 1 ≤ String.length s).
    { intros [|c s]; simpl; [done|lia]. }
    eexists. split; [done|]. exists u. eexists. split; [done|].
    repeat split; [done|by apply Hlen|done|].
    eexists. split; [done|]. exists ws. eexists. split; [done|].
    repeat split; [done|lia|done|].
    eexists. split; [done|]. exists q1. eexists. split; [done|].
    repeat split; [done|lia|done|].
    exists f. eexists. split; [done|].
    repeat split; [done|by apply Hlen|done|].
    exists q2. eexists. split; [done|].
    repeat split; [done|lia|done|].
    exists "". by rewrite sapp_nil_r.
Qed.

(** Candidate extraction finds something exactly when the [src] value holds
    a url-format pair. *)
Lemma parseSrc_nil src : parseSrc src = [] ↔ ¬ Spec.urlFormatPair src.
Proof.
  unfold parseSrc, Regex.matchAll. split.
  - intros Hnil (pre & u & ws & q1 & f & q2 & post & -> & Hrest).
    apply fmap_nil_inv in Hnil. revert Hnil.
    set (w := "url(" +:+ u +:+ ")" +:+ ws +:+ "format(" +:+ q1 +:+ f +:+ q2 +:+ ")").
    assert (Hw : Regex.accepts Regex.srcPattern w).
    { apply srcPattern_accepts. by exists u, ws, q1, f, q2. }
    replace (pre +:+ "url(" +:+ u +:+ ")" +:+ ws +:+ "format(" +:+ q1 +:+ f +:+ q2 +:+ ")" +:+ post)
      with (pre +:+ (w +:+ post)) by (unfold w; by rewrite !sapp_assoc).
    apply matchAllFrom_nil; [done|]. by apply matchHere_complete.
  - intros Hno.
    destruct (Regex.matchAllFrom Regex.srcPattern src 0) as [|m ms] eqn:Hms; [done|].
    exfalso. apply Hno.
    assert (Hne : Regex.matchAllFrom Regex.srcPattern src 0 ≠ []) by by rewrite Hms.
    apply matchAllFrom_cons in Hne as (pre & t & caps & n & -> & Ht).
    apply matchHere_sound, srcPattern_accepts in Ht
      as (u & ws & q1 & f & q2 & Hw & Hrest).
    exists pre, u, ws, q1, f, q2, (Js.drop n t). split; [|done].
    rewrite <- (take_drop n t) at 1. rewrite Hw. by rewrite !sapp_assoc.
Qed.

End Matcher.

(** ** Inlining one font-face rule *)



(** The format of a parsed candidate is in lower case, so that containing
    woff2 and containing it up to letter case are the same for it. *)
Lemma parseSrc_format_lower src c :
  c ∈ parseSrc src → Js.toLowerCase (format c) = format c.
Proof.
  unfold parseSrc. rewrite list_elem_of_In, in_map_iff.
  intros (m & <- & _). simpl. apply toLowerCase_idemp.
Qed.




(** The specification's choice is unique. *)
Lemma chosen_functional {A} (P : A → Prop) l c c' :
  Spec.chosen P l c → Spec.chosen P l c' → c = c'.
Proof.
  assert (Hfirst : ∀ before before' after after',
    Forall (λ b, ¬ P b) before → P c →
    Forall (λ b, ¬ P b) before' → P c' →
    before ++ c :: after = before' ++ c' :: after' → c = c').
  { induction before as [|b before IH];
      intros [|b' before'] after after' Hb Hc Hb' Hc' Heq; simplify_eq/=.
    - done.
    - apply Forall_cons in Hb' as [Hb' _]. by destruct Hb'.
    - apply Forall_cons in Hb as [Hb _]. by destruct Hb.
    - apply Forall_cons in Hb as [_ Hb]. apply Forall_cons in Hb' as [_ Hb'].
      by eapply IH. }
  intros H1 H2.
  destruct H1 as [before c after Hb Hc|c rest Hall].
  - inversion H2 as [before' c'' after' Hb' Hc' Heq|c'' rest' Hall' Heq]; subst.
    + exact (Hfirst _ _ _ _ Hb Hc Hb' Hc' (eq_sym Heq)).
    + rewrite Heq in Hall'. apply Forall_app in Hall' as [_ Hall'].
      apply Forall_cons in Hall' as [Hall' _]. by destruct Hall'.
  - inversion H2 as [before' c'' after' Hb' Hc' Heq|c'' rest' Hall' Heq]; subst.
    + rewrite <- Heq in Hall. apply Forall_app in Hall as [_ Hall].
      apply Forall_cons in Hall as [Hall _]. by destruct Hall.
    + done.
Qed.

Lemma pickCandidate_None urls : pickCandidate urls = None ↔ urls = [].
Proof.
  unfold pickCandidate. split; [|by intros ->].
  destruct (List.find _ urls); [done|]. by destruct urls.
Qed.

Lemma orElse_trim x d :
  d ≠ "" → Js.trim d = d →
  Js.orElse (Js.trim (Js.orElse x d)) d
  = if decide (Js.trim x = "") then d else Js.trim x.
Proof.
  intros Hd Htrim. destruct (decide (Js.trim x = "")) as [Hx|Hx].
  - destruct x as [|c x]; simpl.
    + rewrite Htrim. by destruct d.
    + by rewrite Hx.
  - destruct x as [|c x]; [done|]. simpl.
    by destruct (Js.trim (String c x)).
Qed.

Lemma trim_orElse_empty x : Js.trim (Js.orElse x "") = Js.trim x.
Proof. by destruct x. Qed.

(** The text [inlineFontFace] renders is the replacement rule of the
    specification. *)
Lemma inlined_css_rendered rule dataUrl :
  "@font-face{" +:+
  "font-family:" +:+ Js.trim (font_family rule) +:+ ";" +:+
  "font-style:" +:+
    Js.orElse (Js.trim (Js.orElse (font_style rule) "normal")) "normal" +:+ ";" +:+
  "font-weight:" +:+
    Js.orElse (Js.trim (Js.orElse (font_weight rule) "400")) "400" +:+ ";" +:+
  (match Js.trim (Js.orElse (unicode_range rule) "") with
   | "" => ""
   | _ => "unicode-range:" +:+ Js.trim (Js.orElse (unicode_range rule) "") +:+ ";"
   end) +:+
  "src:url(" +:+ dataUrl +:+ ") format('woff2');" +:+
  "font-display:block;" +:+ "}"
  = Spec.rendered (Js.trim (font_family rule)) (Js.trim (font_style rule))
      (Js.trim (font_weight rule)) (Js.trim (unicode_range rule)) dataUrl.
Proof.
  unfold Spec.rendered. rewrite !orElse_trim by done. rewrite trim_orElse_empty.
  destruct (Js.trim (unicode_range rule)) as [|c u] eqn:Hu.
  - by rewrite (decide_True (P := "" = "")).
  - by rewrite (decide_False (P := String c u = "")).
Qed.


(** C6. The text [inlineFontFace] renders for a rule it has inlined names
    the family as trimmed, the style and the weight with "normal" and "400"
    in place of empty values, a unicode-range exactly when the rule's own,
    once trimmed, is not empty, one [src] that points at the data URL
    obtained for the picked candidate and declares format 'woff2' whatever
    that candidate's format, and font-display block. *)
Theorem rendered_face_text net rule st css st' :
  Js.getTruthy (inlinedFaceCache st) (faceCacheKey rule) = None →
  inlineFontFace net rule st = (Returned (Some css), st') →
  ∃ pick dataUrl st1,
    pickCandidate (parseSrc (src rule)) = Some pick ∧
    urlToDataUrl net (url pick) st = (Returned dataUrl, st1) ∧
    css = Spec.rendered (Js.trim (font_family rule)) (Js.trim (font_style rule))
            (Js.trim (font_weight rule)) (Js.trim (unicode_range rule)) dataUrl.
Proof.
  intros Hmiss. rewrite inlineFontFace_eq, Hmiss.
  destruct (pickCandidate _) as [pick|]; [|done].
  destruct (urlToDataUrl _ _ _) as [[dataUrl|e] st1] eqn:Hu; [|done].
  simpl. rewrite inlined_css_rendered. intros [= <- <-].
  by exists pick, dataUrl, st1.
Qed.

Lemma inlineAll_app net before : ∀ after parts st,
  inlineAll net (before ++ after) parts st =
  match inlineAll net before parts st with
  | (Returned parts1, st1) => inlineAll net after parts1 st1
  | (Thrown e, st1) => (Thrown e, st1)
  end.
Proof.
  induction before as [|r before IH]; intros after parts st; simpl; [done|].
  unfold bind. destruct (inlineFontFace net r st) as [[css|e] st1]; [|done].
  apply IH.
Qed.

(** C10, as amended. A rule whose [src] holds no url(...) reference
    followed by a format(...) clause yields no candidate; when
    [inlineFontFace] finds no truthy entry for the rule's key in
    [inlinedFaceCache], it returns null and leaves the module state
    untouched, so nothing is fetched and no cache is written; and wherever
    the rule stands among the matched rules, the loop of the builder
    produces what it produces without the rule, as long as the rule's key is
    not cached when the loop reaches it. *)
Theorem src_without_format_is_omitted net rule st :
  ¬ Spec.urlFormatPair (src rule) →
  Js.getTruthy (inlinedFaceCache st) (faceCacheKey rule) = None →
  parseSrc (src rule) = [] ∧
  inlineFontFace net rule st = (Returned None, st) ∧
  ∀ before after parts st0,
    (∀ parts1 st1,
       inlineAll net before parts st0 = (Returned parts1, st1) →
       Js.getTruthy (inlinedFaceCache st1) (faceCacheKey rule) = None) →
    inlineAll net (before ++ rule :: after) parts st0
    = inlineAll net (before ++ after) parts st0.
Proof.
  intros Hsrc%parseSrc_nil Hmiss.
  assert (Hnull : ∀ st1,
    Js.getTruthy (inlinedFaceCache st1) (faceCacheKey rule) = None →
    inlineFontFace net rule st1 = (Returned None, st1)).
  { intros st1 Hst1. apply inlineFontFace_notInlinable.
    split; [done|]. by rewrite Hsrc. }
  split; [done|]. split; [by apply Hnull|].
  intros before after parts st0 Hreach. rewrite !inlineAll_app.
  destruct (inlineAll net before parts st0) as [[parts1 | e] st1]; [|done].
  simpl. unfold bind. by rewrite (Hnull _ (Hreach _ _ eq_refl)).
Qed.

(** ** The collector *)

Lemma normalizeWeight_eq w :
  (let w1 := if String.eqb w "normal" then "400" else w in
   if String.eqb w1 "bold" then "700" else w1) = Spec.normalizeWeight w.
Proof.
  unfold Spec.normalizeWeight. simpl.
  destruct (String.eqb_spec w "normal") as [->|Hn].
  - done.
  - rewrite decide_False by done.
    destruct (String.eqb_spec w "bold") as [->|Hb]; [done|].
    by rewrite decide_False.
Qed.

Lemma collectOne_variantOf triples el :
  collectOne triples el =
  match variantOf (getComputedStyle el) with
  | Some t => triples ∪ {[t]}
  | None => triples
  end.
Proof.
  unfold collectOne, variantOf, firstFamily, elementWeight, elementStyle.
  destruct (map _ (Js.split _ _)) as [|family rest]; simpl; [done|].
  destruct (String.eqb family "" || Regex.testGeneric family); [done|].
  by rewrite <- normalizeWeight_eq.
Qed.

Lemma foldl_collectOne t : ∀ els triples,
  t ∈ foldl collectOne triples els ↔
  t ∈ triples ∨ ∃ el, el ∈ els ∧ variantOf (getComputedStyle el) = Some t.
Proof.
  induction els as [|el els IH]; intros triples; simpl.
  - split; [by left|]. intros [?|(el & Hel & _)]; [done|]. by apply elem_of_nil in Hel.
  - rewrite IH, collectOne_variantOf. split.
    + intros [Ht|(el' & Hel' & Hv)].
      * destruct (variantOf (getComputedStyle el)) as [t'|] eqn:Hv; [|by left].
        apply elem_of_union in Ht as [Ht|Ht%elem_of_singleton]; [by left|].
        subst t'. right. exists el. split; [left|done].
      * right. exists el'. split; [by right|done].
    + intros [Ht|(el' & Hel' & Hv)].
      * left. destruct (variantOf (getComputedStyle el)); [|done].
        apply elem_of_union. by left.
      * apply elem_of_cons in Hel' as [->|Hel'].
        -- left. rewrite Hv. apply elem_of_union. right.
           by apply elem_of_singleton.
        -- right. by exists el'.
Qed.

(** The collected set holds exactly the variants of the visited elements. *)
Lemma collectUsedTriples_spec root t :
  t ∈ collectUsedTriples root ↔
  ∃ el, el ∈ treeWalk root ∧ variantOf (getComputedStyle el) = Some t.
Proof.
  unfold collectUsedTriples. rewrite foldl_collectOne.
  split; [|by right]. intros [Ht|Hel]; [|done]. by apply elem_of_empty in Ht.
Qed.

Lemma collectUsedTriples_leaf cs :
  collectUsedTriples (Element cs []) =
  match variantOf cs with Some t => {[t]} | None => ∅ end.
Proof.
  unfold collectUsedTriples. simpl. rewrite collectOne_variantOf. simpl.
  destruct (variantOf cs); [|done]. by rewrite union_empty_l_L.
Qed.

(** A subtree in which every element resolves to a generic family has no
    variant to embed. *)
Lemma generic_subtree_collects_nothing root :
  (∀ el, el ∈ treeWalk root →
         Regex.testGeneric (firstFamily (getComputedStyle el)) = true) →
  collectUsedTriples root = ∅.
Proof.
  intros Hgeneric. apply elem_of_equiv_empty_L. intros t.
  rewrite collectUsedTriples_spec. intros (el & Hel & Hv).
  unfold variantOf in Hv. rewrite (Hgeneric _ Hel), orb_true_r in Hv. done.
Qed.

(** *** The test for generic families *)

Lemma allAscii_spec (P : ascii → bool) :
  forallb P (map ascii_of_nat (seq 0 256)) = true → ∀ b, P b = true.
Proof.
  intros H b. rewrite forallb_forall in H. apply H.
  rewrite <- (ascii_nat_embedding b). apply in_map, in_seq.
  pose proof (nat_ascii_bounded b). lia.
Qed.

Lemma canonicalize_lowerChar c b :
  foldable c = true →
  Ascii.eqb (Js.canonicalize c) (Js.canonicalize b) = true ↔ Js.lowerChar b = c.
Proof.
  intros Hc.
  assert (H : forallb (λ c, forallb (λ b,
                Bool.eqb (Ascii.eqb (Js.canonicalize c) (Js.canonicalize b))
                         (Ascii.eqb (Js.lowerChar b) c))
                (map ascii_of_nat (seq 0 256)))
              (String.list_ascii_of_string "serifan-mopcytu") = true)
    by (vm_compute; reflexivity).
  rewrite forallb_forall in H.
  apply existsb_exists in Hc as (c' & Hin & ->%Ascii.eqb_eq).
  specialize (H _ Hin).
  apply allAscii_spec with (b := b), Bool.eqb_prop in H.
  rewrite H. apply Ascii.eqb_eq.
Qed.

Lemma startsWith_i_spec kw : ∀ s,
  forallb foldable (String.list_ascii_of_string kw) = true →
  Js.startsWith_i kw s = true ↔ Spec.beginsWithIgnoringCase kw s.
Proof.
  unfold Spec.beginsWithIgnoringCase.
  induction kw as [|c kw IH]; intros s Hkw; simpl.
  - split; [|done]. intros _. by exists "", s.
  - simpl in Hkw. apply andb_true_iff in Hkw as [Hc Hkw].
    destruct s as [|b s].
    + split; [done|]. intros (p & rest & Heq & Hp). symmetry in Heq.
      apply sapp_eq_nil in Heq as [-> _]. done.
    + rewrite andb_true_iff, canonicalize_lowerChar, IH by done. split.
      * intros [<- (p & rest & -> & <-)]. by exists (String b p), rest.
      * intros ([|b' p] & rest & Heq & Hp); [done|].
        rewrite sapp_cons in Heq. simpl in Hp. simplify_eq. eauto.
Qed.

Lemma testGeneric_spec family :
  Regex.testGeneric family = true ↔
  ∃ kw, kw ∈ ["serif"; "sans-serif"; "monospace"; "system-ui"; "ui-"] ∧
        Spec.beginsWithIgnoringCase kw family.
Proof.
  unfold Regex.testGeneric, Regex.genericPrefixes. rewrite existsb_exists.
  assert (Hfold : ∀ kw, In kw ["serif"; "sans-serif"; "monospace"; "system-ui"; "ui-"] →
            forallb foldable (String.list_ascii_of_string kw) = true).
  { intros kw Hkw. simpl in Hkw.
    destruct Hkw as [<-|[<-|[<-|[<-|[<-|[]]]]]]; reflexivity. }
  split.
  - intros (kw & Hin & Hkw). exists kw. split; [by apply list_elem_of_In|].
    by apply startsWith_i_spec; [apply Hfold|].
  - intros (kw & Hin%list_elem_of_In & Hkw). exists kw. split; [done|].
    by apply startsWith_i_spec; [apply Hfold|].
Qed.

(** C3, as amended. The collector skips an element exactly when its first
    family, trimmed and with its quotes stripped, is empty or begins,
    letter case ignored, with serif, sans-serif, monospace, system-ui or
    ui-; a name that merely begins with one of these words is skipped like
    the word itself.  An element with any other first family adds its
    variant to the set. *)
Theorem generic_prefix_is_skipped el :
  let family := firstFamily (getComputedStyle el) in
  let skipped :=
    family = "" ∨
    ∃ kw, kw ∈ ["serif"; "sans-serif"; "monospace"; "system-ui"; "ui-"] ∧
          Spec.beginsWithIgnoringCase kw family in
  (skipped → ∀ triples, collectOne triples el = triples) ∧
  (¬ skipped →
   ∃ weight style, ∀ triples,
     collectOne triples el
     = triples ∪ {[ family +:+ "||" +:+ weight +:+ "||" +:+ style ]}).
Proof.
  intros family skipped.
  assert (Hskip : skipped ↔
            String.eqb family "" || Regex.testGeneric family = true).
  { unfold skipped. rewrite orb_true_iff, String.eqb_eq, testGeneric_spec. done. }
  split.
  - intros Hs%Hskip triples. rewrite collectOne_variantOf.
    unfold variantOf. fold family. by rewrite Hs.
  - intros Hs. exists (elementWeight (getComputedStyle el)),
                      (elementStyle (getComputedStyle el)).
    intros triples. rewrite collectOne_variantOf.
    unfold variantOf. fold family.
    destruct (String.eqb family "" || Regex.testGeneric family) eqn:Hb; [|done].
    destruct Hs. by apply Hskip.
Qed.

(** ** Stored empty strings *)

Lemma stored_empty_is_a_miss (m : gmap string string) k :
  m !! k = Some "" → Js.getTruthy m k = None.
Proof. unfold Js.getTruthy. by intros ->. Qed.

Lemma join_cons_ne sep h tl : h ≠ "" → Js.join sep (h :: tl) ≠ "".
Proof.
  intros Hh. unfold Js.join. simpl. destruct h as [|c h]; [done|].
  by destruct tl.
Qed.

Lemma embedKey_empty : embedKey ∅ = "".
Proof. unfold embedKey. by rewrite elements_empty. Qed.

Lemma embedKey_ne (triples : gset string) :
  triples ≠ ∅ → (∀ t, t ∈ triples → t ≠ "") → embedKey triples ≠ "".
Proof.
  intros Hne Hall. unfold embedKey, Js.sort.
  destruct (merge_sort String.le (elements triples)) as [|h tl] eqn:Hsort.
  - destruct Hne. apply leibniz_equiv, elements_empty_inv.
    apply Permutation_nil_r. rewrite <- Hsort.
    symmetry. apply merge_sort_Permutation.
  - apply join_cons_ne, Hall, elem_of_elements.
    rewrite <- (merge_sort_Permutation String.le), Hsort. apply list_elem_of_here.
Qed.

Lemma variantOf_ne cs t : variantOf cs = Some t → t ≠ "".
Proof.
  unfold variantOf. destruct (_ || _); [done|]. intros [= <-].
  by destruct (firstFamily cs).
Qed.

(** A variant set with the key of a non-empty collected set is not empty. *)
Lemma same_key_not_empty root root' :
  collectUsedTriples root ≠ ∅ →
  embedKey (collectUsedTriples root') = embedKey (collectUsedTriples root) →
  collectUsedTriples root' ≠ ∅.
Proof.
  intros Hne Hkey Hempty. rewrite Hempty, embedKey_empty in Hkey.
  symmetry in Hkey. revert Hkey. apply embedKey_ne; [done|].
  intros t (el & _ & Hv)%collectUsedTriples_spec. by apply variantOf_ne in Hv.
Qed.

(** C9, as amended. A stored empty string is never taken for a hit.  When
    a call has returned the empty string for a non-empty variant set, it has
    stored it under the key of that set; every call whose variant set
    produces that key, in a state that holds the empty string under it,
    runs rule matching and inlining again, as it does for an absent key; and
    the next call that collects the same variant set over the same style
    sheets returns the empty string again and changes nothing. *)
Theorem empty_result_is_never_a_hit net net' document root st st' :
  collectUsedTriples root ≠ ∅ →
  buildFontEmbedCSS net document root st = (Returned "", st') →
  embedCssForTriplesCache st' !! embedKey (collectUsedTriples root) = Some "" ∧
  (∀ document' root' st0,
     embedKey (collectUsedTriples root') = embedKey (collectUsedTriples root) →
     embedCssForTriplesCache st0 !! embedKey (collectUsedTriples root) = Some "" →
     buildFontEmbedCSS net' document' root' st0
     = rebuild net' document' (collectUsedTriples root') st0) ∧
  (∀ root',
     collectUsedTriples root' = collectUsedTriples root →
     buildFontEmbedCSS net' document root' st' = (Returned "", st')).
Proof.
  intros Hne Hb.
  assert (Hgen : ∀ document' root' st0,
     embedKey (collectUsedTriples root') = embedKey (collectUsedTriples root) →
     embedCssForTriplesCache st0 !! embedKey (collectUsedTriples root) = Some "" →
     buildFontEmbedCSS net' document' root' st0
     = rebuild net' document' (collectUsedTriples root') st0).
  { intros document' root' st0 Hkey Hst0. rewrite buildFontEmbedCSS_eq.
    rewrite bool_decide_eq_false_2
      by (rewrite size_zero_empty; by eapply same_key_not_empty).
    by rewrite Hkey, (stored_empty_is_a_miss _ _ Hst0). }
  rewrite buildFontEmbedCSS_eq in Hb.
  rewrite bool_decide_eq_false_2 in Hb by by rewrite size_zero_empty.
  destruct (Js.getTruthy (embedCssForTriplesCache st) _) as [cached|] eqn:Hc.
  { apply getTruthy_Some in Hc as [_ Hcached]. by simplify_eq. }
  assert (Hstored :
    embedCssForTriplesCache st' !! embedKey (collectUsedTriples root) = Some "").
  { rewrite rebuild_eq in Hb.
    destruct (inlineAll _ _ _ _) as [[parts|e] st1]; [|done].
    injection Hb as Hjoin <-. rewrite Hjoin.
    unfold withEmbedCss, setEmbedCss. simpl. apply lookup_insert_eq. }
  split; [done|]. split; [exact Hgen|].
  intros root' Hsame. rewrite (Hgen document root' st') by by rewrite ?Hsame.
  rewrite Hsame. by destruct (rebuild_again _ net' _ _ _ _ Hc Hb) as [_ ->].
Qed.

(** ** The matcher *)

Lemma matchOne_wanted want out rule :
  matchOne want out rule = out ++ List.filter (wanted want) (facesOf [rule]).
Proof.
  destruct rule as [ff|]; simpl; [|by rewrite app_nil_r].
  unfold wanted, ruleKey, ruleFamily, ruleWeight, ruleStyle.
  destruct (String.eqb _ ""); [by rewrite app_nil_r|].
  rewrite <- normalizeWeight_eq. simpl.
  case_bool_decide; [done|by rewrite app_nil_r].
Qed.

Lemma foldl_matchOne want rules : ∀ out,
  foldl (matchOne want) out rules
  = out ++ List.filter (wanted want) (facesOf rules).
Proof.
  induction rules as [|rule rules IH]; intros out; simpl.
  - by rewrite app_nil_r.
  - rewrite IH, matchOne_wanted. unfold facesOf. simpl.
    rewrite app_nil_r, List.filter_app. by rewrite <- app_assoc.
Qed.

(** The matched rules are the readable font-face rules whose lowercase key
    is wanted, in discovery order. *)
Lemma getMatchingFontFaceRules_eq document triples :
  getMatchingFontFaceRules document triples
  = List.filter (wanted (set_map Js.toLowerCase triples)) (readableFaces document).
Proof.
  unfold getMatchingFontFaceRules.
  generalize (set_map Js.toLowerCase triples : gset string). intros want.
  rewrite <- (app_nil_l (List.filter _ _)). generalize (@nil CSSFontFaceRule).
  induction document as [|sheet document IH]; intros out; simpl.
  - by rewrite app_nil_r.
  - rewrite IH, List.filter_app, app_assoc. f_equal.
    destruct sheet as [rules|]; simpl; [apply foldl_matchOne|by rewrite app_nil_r].
Qed.

Lemma toLowerCase_triple family weight style :
  Js.toLowerCase (family +:+ "||" +:+ weight +:+ "||" +:+ style)
  = Js.toLowerCase family +:+ "||" +:+ Js.toLowerCase weight +:+ "||" +:+
    Js.toLowerCase style.
Proof. by rewrite !toLowerCase_app. Qed.

(** C7. The collector and the matcher normalize weights in the same way,
    "normal" to "400", "bold" to "700" and any other weight left as it is:
    the weight of an element's variant and the weight in a rule's key are
    both [Spec.normalizeWeight] of the trimmed value (of "400" when there is
    none).  So an element and a readable font-face rule that agree on family
    and style up to letter case, and whose weights are "normal" and "400",
    or "bold" and "700", either way round, are matched. *)
Theorem weight_keywords_match :
  (∀ triples el,
     collectOne triples el =
     match variantOf (getComputedStyle el) with
     | Some t => triples ∪ {[t]}
     | None => triples
     end) ∧
  (∀ want out ff,
     matchOne want out (FontFaceRule ff) =
     match ruleKey ff with
     | Some key => if bool_decide (key ∈ want) then out ++ [ff] else out
     | None => out
     end) ∧
  (∀ document root el ff,
     el ∈ treeWalk root →
     ff ∈ readableFaces document →
     firstFamily (getComputedStyle el) ≠ "" →
     Regex.testGeneric (firstFamily (getComputedStyle el)) = false →
     Js.toLowerCase (firstFamily (getComputedStyle el))
     = Js.toLowerCase (ruleFamily ff) →
     Js.toLowerCase (elementStyle (getComputedStyle el))
     = Js.toLowerCase (ruleStyle ff) →
     (fontWeight (getComputedStyle el), font_weight ff)
     ∈ [("normal", "400"); ("400", "normal"); ("bold", "700"); ("700", "bold")] →
     ff ∈ getMatchingFontFaceRules document (collectUsedTriples root)).
Proof.
  split; [apply collectOne_variantOf|]. split.
  { intros want out ff. rewrite matchOne_wanted. unfold wanted, facesOf. simpl.
    destruct (ruleKey ff); [|by rewrite app_nil_r].
    case_bool_decide; [done|by rewrite app_nil_r]. }
  intros document root el ff Hel Hff Hfam Hgen Hfamily Hstyle Hweight.
  set (cs := getComputedStyle el) in *.
  assert (Hw : elementWeight cs = ruleWeight ff).
  { unfold elementWeight, ruleWeight.
    repeat (apply elem_of_cons in Hweight as [[= -> ->]|Hweight]; [done|]).
    by apply elem_of_nil in Hweight. }
  assert (Hv : variantOf cs
               = Some (firstFamily cs +:+ "||" +:+ elementWeight cs +:+ "||" +:+
                       elementStyle cs)).
  { unfold variantOf. rewrite Hgen.
    destruct (String.eqb_spec (firstFamily cs) "") as [Hnil|_]; [|done].
    by destruct Hfam. }
  assert (Hrf : ruleFamily ff ≠ "").
  { intros Hnil. rewrite Hnil in Hfamily. simpl in Hfamily.
    apply (proj1 (toLowerCase_nil _)) in Hfamily. by destruct Hfam. }
  rewrite getMatchingFontFaceRules_eq, list_elem_of_In, filter_In.
  split; [by apply list_elem_of_In|].
  unfold wanted, ruleKey. destruct (String.eqb_spec (ruleFamily ff) ""); [done|].
  apply bool_decide_eq_true, elem_of_map.
  exists (firstFamily cs +:+ "||" +:+ elementWeight cs +:+ "||" +:+ elementStyle cs).
  split.
  - by rewrite !toLowerCase_triple, Hfamily, Hstyle, Hw.
  - apply collectUsedTriples_spec. by exists el.
Qed.

(** ** Identity of variants *)

Lemma embedKey_singleton t : embedKey {[t]} = t.
Proof.
  unfold embedKey. rewrite elements_singleton. unfold Js.join. simpl. done.
Qed.

(** C4, as amended. The collected set and the result-cache key keep variants
    as the exact concatenation of family, weight and style: two elements
    contribute a single variant, and subtrees made of either yield the same
    key, exactly when their triples are the same string.  Letter case is
    normalised only by the matcher: elements whose triples differ only in
    letter case select the same font-face rules. *)
Theorem variant_identity_is_exact cs1 cs2 t1 t2 :
  variantOf cs1 = Some t1 →
  variantOf cs2 = Some t2 →
  (size (collectUsedTriples (Element cs1 [Element cs2 []])) = 1 ↔ t1 = t2) ∧
  (embedKey (collectUsedTriples (Element cs1 []))
   = embedKey (collectUsedTriples (Element cs2 [])) ↔ t1 = t2) ∧
  (Js.toLowerCase t1 = Js.toLowerCase t2 →
   ∀ document,
     getMatchingFontFaceRules document (collectUsedTriples (Element cs1 []))
     = getMatchingFontFaceRules document (collectUsedTriples (Element cs2 []))).
Proof.
  intros H1 H2. rewrite !collectUsedTriples_leaf, H1, H2.
  rewrite !embedKey_singleton. split; [|split; [done|]].
  - unfold collectUsedTriples. simpl.
    rewrite !collectOne_variantOf. simpl. rewrite H1, H2.
    rewrite union_empty_l_L. split.
    + intros Hsize. destruct (decide (t1 = t2)) as [|Hne]; [done|].
      rewrite size_union in Hsize by (by apply disjoint_singleton_l, not_elem_of_singleton).
      rewrite !size_singleton in Hsize. lia.
    + intros ->. by rewrite union_idemp_L, size_singleton.
  - intros Hlow document. unfold getMatchingFontFaceRules.
    by rewrite !set_map_singleton_L, Hlow.
Qed.

(** ** Instances *)

Lemma buildFontEmbedCSS_idempotent_witness :
  let first := buildFontEmbedCSS echoNetwork interDocument interRoot initialState in
  first.1 = Returned interCss ∧
  buildFontEmbedCSS failingNetwork interDocument interRoot first.2
  = (Returned interCss, first.2).
Proof.
  split; [vm_compute; reflexivity|].
  apply (buildFontEmbedCSS_idempotent echoNetwork failingNetwork interDocument
           interRoot initialState).
  vm_compute. reflexivity.
Defined.

Lemma fetch_failure_aborts_build_witness :
  let call := buildFontEmbedCSS failingNetwork interDocument interRoot initialState in
  fetchLog call.2 = ["https://example/a.woff2"] ∧
  call.1 = Thrown (FetchFailed "https://example/a.woff2" 404) ∧
  embedCssForTriplesCache call.2 = ∅.
Proof.
  intros call. split; [vm_compute; reflexivity|].
  destruct (fetch_failure_aborts_build failingNetwork interDocument interRoot
              initialState call.1 call.2 [] "https://example/a.woff2" [] 404 "")
    as (Hthrown & _ & Hcache).
  - vm_compute. reflexivity.
  - vm_compute. reflexivity.
  - vm_compute. reflexivity.
  - vm_compute. reflexivity.
  - split; [exact Hthrown|exact Hcache].
Defined.

Lemma generic_prefix_is_skipped_witness :
  collectOne ∅ serifaElement = ∅.
Proof.
  apply (proj1 (generic_prefix_is_skipped serifaElement)).
  right. exists "serif". split; [apply list_elem_of_here|].
  exists "Serif", "a". split; reflexivity.
Defined.

(** C3, as stated, fails: Serifa is no generic keyword and does not begin
    with ui-, yet the element contributes nothing. *)
Lemma generic_exact_match_counterexample :
  ¬ (collectOne ∅ serifaElement = ∅ ↔
     Spec.isGenericKeyword (firstFamily (getComputedStyle serifaElement))).
Proof.
  intros [Hskip _].
  destruct (Hskip eq_refl) as [Hin|[rest Hrest]].
  - vm_compute in Hin.
    repeat (apply elem_of_cons in Hin as [Hin|Hin]; [discriminate Hin|]).
    by apply elem_of_nil in Hin.
  - vm_compute in Hrest. discriminate Hrest.
Qed.

Lemma variant_identity_is_exact_witness :
  (size (collectUsedTriples (Element upperStyle [Element lowerStyle []])) = 1
   ↔ "Inter||400||normal" = "inter||400||normal") ∧
  (embedKey (collectUsedTriples (Element upperStyle []))
   = embedKey (collectUsedTriples (Element lowerStyle []))
   ↔ "Inter||400||normal" = "inter||400||normal") ∧
  (Js.toLowerCase "Inter||400||normal" = Js.toLowerCase "inter||400||normal" →
   ∀ document,
     getMatchingFontFaceRules document (collectUsedTriples (Element upperStyle []))
     = getMatchingFontFaceRules document (collectUsedTriples (Element lowerStyle []))).
Proof.
  apply (variant_identity_is_exact upperStyle lowerStyle); vm_compute; reflexivity.
Defined.

(** C4, as stated, fails: two elements whose triples differ only in letter
    case contribute two variants, and subtrees made of either have
    different result-cache keys. *)
Lemma variant_case_counterexample :
  variantOf upperStyle = Some "Inter||400||normal" ∧
  variantOf lowerStyle = Some "inter||400||normal" ∧
  Js.toLowerCase "Inter||400||normal" = Js.toLowerCase "inter||400||normal" ∧
  size (collectUsedTriples (Element upperStyle [Element lowerStyle []])) = 2 ∧
  ¬ (Js.toLowerCase "Inter||400||normal" = Js.toLowerCase "inter||400||normal" →
     size (collectUsedTriples (Element upperStyle [Element lowerStyle []])) = 1 ∧
     embedKey (collectUsedTriples (Element upperStyle []))
     = embedKey (collectUsedTriples (Element lowerStyle []))).
Proof.
  repeat split; try (vm_compute; reflexivity).
  intros Hclaim. destruct (Hclaim eq_refl) as [Hsize _].
  vm_compute in Hsize. discriminate Hsize.
Qed.


(** The end-to-end example: the woff2 source, listed second, is the one
    fetched and embedded. *)
Example inter_end_to_end :
  parseSrc (src interRule)
  = [ {| url := "https://example/a.woff"; format := "woff" |};
      {| url := "https://example/a.woff2"; format := "woff2" |} ] ∧
  pickCandidate (parseSrc (src interRule))
  = Some {| url := "https://example/a.woff2"; format := "woff2" |} ∧
  (buildFontEmbedCSS echoNetwork interDocument interRoot initialState).1
  = Returned interCss ∧
  fetchLog (buildFontEmbedCSS echoNetwork interDocument interRoot initialState).2
  = ["https://example/a.woff2"].
Proof. repeat split; vm_compute; reflexivity. Qed.

(** Format hints written without quotes are not told apart by the pattern:
    the second capture runs on to the last closing parenthesis, and the two
    sources come out as one candidate with the first reference. *)
Example unquoted_hints_merge :
  parseSrc "url(https://example/a.woff) format(woff), url(https://example/a.woff2) format(woff2)"
  = [ {| url := "https://example/a.woff";
         format := "woff), url(https://example/a.woff2) format(woff2" |} ].
Proof. vm_compute. reflexivity. Qed.

(** A rule without format hints, alone in the document: the build fetches
    nothing and yields the empty string. *)
Example no_format_end_to_end :
  (buildFontEmbedCSS echoNetwork [Readable [FontFaceRule noFormatRule]]
     interRoot initialState).1 = Returned "" ∧
  fetchLog (buildFontEmbedCSS echoNetwork [Readable [FontFaceRule noFormatRule]]
              interRoot initialState).2 = [] ∧
  inlinedFaceCache (buildFontEmbedCSS echoNetwork [Readable [FontFaceRule noFormatRule]]
                      interRoot initialState).2 = ∅.
Proof. repeat split; vm_compute; reflexivity. Qed.

Lemma rendered_face_text_witness :
  ∃ pick dataUrl st1,
    pickCandidate (parseSrc (src boldRule)) = Some pick ∧
    urlToDataUrl echoNetwork (url pick) initialState = (Returned dataUrl, st1) ∧
    "@font-face{font-family:inter;font-style:normal;font-weight:700;unicode-range:U+0000-00FF;src:url(data:font/woff2;base64,https://example/b.woff2) format('woff2');font-display:block;}"
    = Spec.rendered (Js.trim (font_family boldRule)) (Js.trim (font_style boldRule))
        (Js.trim (font_weight boldRule)) (Js.trim (unicode_range boldRule)) dataUrl.
Proof.
  apply (rendered_face_text echoNetwork boldRule initialState _
           (inlineFontFace echoNetwork boldRule initialState).2).
  - vm_compute. reflexivity.
  - vm_compute. reflexivity.
Defined.

Lemma weight_keywords_match_witness :
  boldRule ∈ getMatchingFontFaceRules boldDocument (collectUsedTriples boldRoot).
Proof.
  apply (proj2 (proj2 weight_keywords_match) boldDocument boldRoot boldRoot boldRule).
  - apply list_elem_of_here.
  - apply list_elem_of_here.
  - vm_compute. discriminate.
  - vm_compute. reflexivity.
  - vm_compute. reflexivity.
  - vm_compute. reflexivity.
  - simpl. do 2 apply list_elem_of_further. apply list_elem_of_here.
Defined.

Lemma no_variants_no_work_witness :
  collectUsedTriples sansRoot = ∅ ∧
  buildFontEmbedCSS failingNetwork interDocument sansRoot initialState
  = (Returned "", initialState).
Proof.
  split; [vm_compute; reflexivity|].
  apply (no_variants_no_work failingNetwork interDocument sansRoot initialState).
  vm_compute. reflexivity.
Defined.

Lemma empty_result_is_never_a_hit_witness :
  let first := buildFontEmbedCSS echoNetwork boldDocument interRoot initialState in
  first.1 = Returned "" ∧
  embedCssForTriplesCache first.2 !! embedKey (collectUsedTriples interRoot)
  = Some "" ∧
  buildFontEmbedCSS failingNetwork boldDocument interRoot first.2
  = (Returned "", first.2).
Proof.
  intros first. split; [vm_compute; reflexivity|].
  destruct (empty_result_is_never_a_hit echoNetwork failingNetwork boldDocument
              interRoot initialState first.2) as (Hstored & _ & Hagain).
  - vm_compute. discriminate.
  - vm_compute. reflexivity.
  - split; [exact Hstored|]. by apply Hagain.
Defined.

(** C9, as stated, fails: after a build for the families A and B has stored
    the empty string, a build for the single family named after their joint
    key produces the same key, finds the empty string, runs the miss branch
    and returns a font-face rule, not the empty string. *)
Lemma same_key_counterexample :
  let first := buildFontEmbedCSS echoNetwork barDocument abRoot initialState in
  first.1 = Returned "" ∧
  embedCssForTriplesCache first.2 !! embedKey (collectUsedTriples abRoot)
  = Some "" ∧
  embedKey (collectUsedTriples barRoot) = embedKey (collectUsedTriples abRoot) ∧
  (buildFontEmbedCSS echoNetwork barDocument barRoot first.2).1
  = Returned "@font-face{font-family:A||400||normal|B;font-style:normal;font-weight:400;src:url(data:font/woff2;base64,https://example/ab.woff2) format('woff2');font-display:block;}" ∧
  (buildFontEmbedCSS echoNetwork barDocument barRoot first.2).1 ≠ Returned "".
Proof.
  repeat split; try (vm_compute; reflexivity). vm_compute. discriminate.
Qed.

Lemma src_without_format_is_omitted_witness :
  parseSrc (src noFormatRule) = [] ∧
  inlineFontFace echoNetwork noFormatRule initialState = (Returned None, initialState) ∧
  inlineAll echoNetwork [noFormatRule; interRule] [] initialState
  = inlineAll echoNetwork [interRule] [] initialState.
Proof.
  destruct (src_without_format_is_omitted echoNetwork noFormatRule initialState)
    as (Hparse & Hnull & Hloop).
  - apply parseSrc_nil. vm_compute. reflexivity.
  - vm_compute. reflexivity.
  - split; [exact Hparse|]. split; [exact Hnull|].
    apply (Hloop [] [interRule] [] initialState).
    intros parts1 st1 [= <- <-]. vm_compute. reflexivity.
Defined.

(** C10, as stated, fails: a rule without format hints that follows a rule
    with the same family, weight, style and unicode-range yields no
    candidate, yet [inlineFontFace] does not return null for it: it returns
    the text cached for the first rule, and the built CSS holds that text
    twice. *)
Lemma cached_sibling_counterexample :
  let st1 := (inlineFontFace echoNetwork interRule initialState).2 in
  ¬ Spec.urlFormatPair (src noFormatRule) ∧
  parseSrc (src noFormatRule) = [] ∧
  faceCacheKey noFormatRule = faceCacheKey interRule ∧
  inlineFontFace echoNetwork noFormatRule st1 = (Returned (Some interCss), st1) ∧
  inlineFontFace echoNetwork noFormatRule st1 ≠ (Returned None, st1) ∧
  getMatchingFontFaceRules siblingDocument (collectUsedTriples interRoot)
  = [interRule; noFormatRule] ∧
  (buildFontEmbedCSS echoNetwork siblingDocument interRoot initialState).1
  = Returned (interCss +:+ String "010" interCss) ∧
  fetchLog (buildFontEmbedCSS echoNetwork siblingDocument interRoot initialState).2
  = ["https://example/a.woff2"].
Proof.
  intros st1. split; [apply parseSrc_nil; vm_compute; reflexivity|].
  repeat split; try (vm_compute; reflexivity).
  vm_compute. discriminate.
Qed.

(** * Further properties of the module *)

(** ** What a call may do to the caches and the log *)

Lemma keeps_refl m : keeps m m.
Proof. by intros k v. Qed.

Lemma keeps_trans m1 m2 m3 : keeps m1 m2 → keeps m2 m3 → keeps m1 m3.
Proof. intros H12 H23 k v Hk. by apply H23, H12. Qed.

Lemma keeps_insert m k v : Js.getTruthy m k = None → keeps m (<[k := v]> m).
Proof.
  intros Hmiss k' v' Hk'. destruct (decide (k = k')) as [<-|Hne]; [congruence|].
  unfold Js.getTruthy in *. by rewrite lookup_insert_ne.
Qed.

Lemma effect_none st : effect 0 st st.
Proof.
  repeat split; try apply keeps_refl. exists []. rewrite app_nil_r.
  split; [done|]. split; [done|]. by intros u ?%elem_of_nil.
Qed.

Lemma effect_le n m st st' : n ≤ m → effect n st st' → effect m st st'.
Proof.
  intros Hle (H1 & H2 & H3 & new & Hlog & Hlen & Hmiss).
  repeat split; try done. exists new. split; [done|]. split; [lia|done].
Qed.

Lemma effect_seq n m st st1 st2 :
  effect n st st1 → effect m st1 st2 → effect (n + m) st st2.
Proof.
  intros (H1 & H2 & H3 & new1 & Hlog1 & Hlen1 & Hmiss1)
         (H1' & H2' & H3' & new2 & Hlog2 & Hlen2 & Hmiss2).
  repeat split; try (by eapply keeps_trans).
  exists (new1 ++ new2). split; [by rewrite Hlog2, Hlog1, app_assoc|].
  split; [rewrite length_app; lia|].
  intros u [Hu|Hu]%elem_of_app; [by apply Hmiss1|].
  specialize (Hmiss2 _ Hu).
  destruct (Js.getTruthy (fontDataUrlCache st) u) as [v|] eqn:Hv; [|done].
  apply H1 in Hv. congruence.
Qed.

Lemma urlToDataUrl_effect net u st r st' :
  urlToDataUrl net u st = (r, st') → effect 1 st st'.
Proof.
  unfold urlToDataUrl. async.
  destruct (Js.getTruthy (fontDataUrlCache st) u) as [cached|] eqn:Hmiss.
  { intros [= <- <-]. apply (effect_le 0); [lia|apply effect_none]. }
  assert (Hlog :
            ∃ new, fetchLog st ++ [u] = fetchLog st ++ new ∧ length new ≤ 1 ∧
                   ∀ u', u' ∈ new → Js.getTruthy (fontDataUrlCache st) u' = None).
  { exists [u]. split; [done|]. split; [done|].
    by intros u' ->%list_elem_of_singleton. }
  destruct (net (fetchLog st) u) as [|status d].
  - intros [= <- <-]. repeat split; try apply keeps_refl. exact Hlog.
  - destruct (ok status); simpl; intros [= <- <-];
      repeat split; simpl; try apply keeps_refl; try exact Hlog.
    by apply keeps_insert.
Qed.

Lemma inlineFontFace_effect net rule st r st' :
  inlineFontFace net rule st = (r, st') → effect 1 st st'.
Proof.
  rewrite inlineFontFace_eq.
  destruct (Js.getTruthy (inlinedFaceCache st) _) as [cached|] eqn:Hmiss.
  { intros [= <- <-]. apply (effect_le 0); [lia|apply effect_none]. }
  destruct (pickCandidate _) as [pick|].
  2:{ intros [= <- <-]. apply (effect_le 0); [lia|apply effect_none]. }
  destruct (urlToDataUrl net (url pick) st) as [[d|e] st1] eqn:Hu;
    pose proof (urlToDataUrl_effect _ _ _ _ _ Hu) as Heff;
    apply urlToDataUrl_footprint in Hu as (Hinl & _ & _);
    intros [= <- <-]; [|done].
  destruct Heff as (H1 & H2 & H3 & Hlog).
  repeat split; try done. simpl.
  eapply keeps_trans; [exact H2|]. apply keeps_insert. by rewrite Hinl.
Qed.

Lemma inlineAll_effect net rules : ∀ parts st r st',
  inlineAll net rules parts st = (r, st') → effect (length rules) st st'.
Proof.
  induction rules as [|rule rules IH]; intros parts st r st'; simpl.
  - intros [= <- <-]. apply effect_none.
  - unfold bind at 1.
    destruct (inlineFontFace net rule st) as [[css|e] st1] eqn:H1;
      apply inlineFontFace_effect in H1.
    + intros H2%IH. exact (effect_seq 1 _ _ _ _ H1 H2).
    + intros [= <- <-]. eapply effect_le; [|exact H1]. lia.
Qed.

Lemma buildFontEmbedCSS_effect net document root st r st' :
  buildFontEmbedCSS net document root st = (r, st') →
  effect (length (getMatchingFontFaceRules document (collectUsedTriples root)))
    st st'.
Proof.
  rewrite buildFontEmbedCSS_eq.
  case_bool_decide.
  { intros [= <- <-]. eapply effect_le; [|apply effect_none]. lia. }
  destruct (Js.getTruthy (embedCssForTriplesCache st) _) as [cached|] eqn:Hmiss.
  { intros [= <- <-]. eapply effect_le; [|apply effect_none]. lia. }
  rewrite rebuild_eq.
  destruct (inlineAll _ _ _ _) as [[parts|e] st1] eqn:Hall;
    pose proof (inlineAll_effect _ _ _ _ _ _ Hall) as Heff;
    apply inlineAll_footprint in Hall as (Hemb & _);
    intros [= <- <-]; [|done].
  destruct Heff as (H1 & H2 & H3 & Hlog).
  repeat split; try done. simpl.
  eapply keeps_trans; [exact H3|]. apply keeps_insert. by rewrite Hemb.
Qed.

Lemma later_keeps st st' :
  later st st' →
  keeps (fontDataUrlCache st) (fontDataUrlCache st') ∧
  keeps (inlinedFaceCache st) (inlinedFaceCache st') ∧
  keeps (embedCssForTriplesCache st) (embedCssForTriplesCache st') ∧
  ∃ new, fetchLog st' = fetchLog st ++ new.
Proof.
  induction 1 as [st|st st1 st2 net document root r _ IH Hb].
  - repeat split; try apply keeps_refl. exists []. by rewrite app_nil_r.
  - destruct IH as (H1 & H2 & H3 & new1 & Hlog1).
    apply buildFontEmbedCSS_effect in Hb
      as (H1' & H2' & H3' & new2 & Hlog2 & _).
    repeat split; try (by eapply keeps_trans).
    exists (new1 ++ new2). by rewrite Hlog2, Hlog1, app_assoc.
Qed.

(** X1. No call of [buildFontEmbedCSS], returning or throwing, removes or
    changes a truthy entry of any of the three caches, and none shortens
    the log of requests: whatever key a sequence of calls finds cached at
    its start, in whichever cache, is still cached with the same value at
    its end. *)
Theorem caches_only_grow st st' k v :
  later st st' →
  (Js.getTruthy (fontDataUrlCache st) k = Some v →
   Js.getTruthy (fontDataUrlCache st') k = Some v) ∧
  (Js.getTruthy (inlinedFaceCache st) k = Some v →
   Js.getTruthy (inlinedFaceCache st') k = Some v) ∧
  (Js.getTruthy (embedCssForTriplesCache st) k = Some v →
   Js.getTruthy (embedCssForTriplesCache st') k = Some v) ∧
  ∃ new, fetchLog st' = fetchLog st ++ new.
Proof.
  intros (H1 & H2 & H3 & Hlog)%later_keeps.
  split; [apply H1|]. split; [apply H2|]. split; [apply H3|exact Hlog].
Qed.

(** X2. A call of [buildFontEmbedCSS] requests no URL that has a truthy
    entry in [fontDataUrlCache] when the call begins, and it makes at most
    one request for each matched font-face rule. *)
Theorem requests_are_misses net document root st r st' new :
  buildFontEmbedCSS net document root st = (r, st') →
  fetchLog st' = fetchLog st ++ new →
  length new
  ≤ length (getMatchingFontFaceRules document (collectUsedTriples root)) ∧
  ∀ u, u ∈ new → Js.getTruthy (fontDataUrlCache st) u = None.
Proof.
  intros (_ & _ & _ & new' & Hlog & Hlen & Hmiss)%buildFontEmbedCSS_effect Hnew.
  rewrite Hlog in Hnew. apply app_inv_head in Hnew as ->. done.
Qed.

(** ** Why a call throws *)

Lemma trace_Some net log new e :
  trace net log new (Some e) →
  ∃ pre u, new = pre ++ [u] ∧ failure net (log ++ pre) u = Some e.
Proof.
  remember (Some e) as oe eqn:Hoe. intros Htr. revert Hoe.
  induction Htr as [log|log u new oe Hu Htr IH|log u e' Hu]; intros Hoe.
  - done.
  - destruct (IH Hoe) as (pre & u' & -> & Hfail).
    exists (u :: pre), u'. split; [done|].
    by rewrite <- app_assoc in Hfail.
  - simplify_eq. exists [], u. by rewrite app_nil_r.
Qed.

Lemma trace_None net log new :
  trace net log new None →
  ∀ pre u post, new = pre ++ u :: post → failure net (log ++ pre) u = None.
Proof.
  remember None as oe eqn:Hoe. intros Htr. revert Hoe.
  induction Htr as [log|log u0 new oe Hu Htr IH|log u0 e' Hu];
    intros Hoe pre u post Hnew.
  - by destruct pre.
  - destruct pre as [|p pre]; simplify_eq/=.
    + by rewrite app_nil_r.
    + specialize (IH eq_refl pre u post eq_refl).
      by rewrite <- app_assoc in IH.
  - done.
Qed.

(** X3. A call of [buildFontEmbedCSS] throws for no other reason than a
    failed request: when it throws, the last request it made is the one
    whose failure it throws; when it returns, every request it made was
    answered with a success status. *)
Theorem throws_only_for_a_failed_request net document root st r st' :
  buildFontEmbedCSS net document root st = (r, st') →
  match r with
  | Thrown e =>
      ∃ pre u, fetchLog st' = fetchLog st ++ pre ++ [u] ∧
               failure net (fetchLog st ++ pre) u = Some e
  | Returned _ =>
      ∀ pre u post,
        fetchLog st' = fetchLog st ++ pre ++ u :: post →
        ∃ status dataUrl,
          net (fetchLog st ++ pre) u = Response status dataUrl ∧
          ok status = true
  end.
Proof.
  intros [(new & Hlog & Htr) _]%buildFontEmbedCSS_footprint.
  destruct r as [out|e]; simpl in Htr.
  - intros pre u post Hnew. rewrite Hlog in Hnew.
    apply app_inv_head in Hnew.
    pose proof (trace_None _ _ _ Htr _ _ _ Hnew) as Hfail.
    unfold failure in Hfail.
    destruct (net (fetchLog st ++ pre) u) as [|status d]; [done|].
    destruct (ok status) eqn:Hok; [|done]. by exists status, d.
  - apply trace_Some in Htr as (pre & u & -> & Hfail).
    by exists pre, u.
Qed.

(** ** Memoization *)

Lemma urlToDataUrl_cached net u st d st' :
  urlToDataUrl net u st = (Returned d, st') → d ≠ "" →
  Js.getTruthy (fontDataUrlCache st') u = Some d.
Proof.
  unfold urlToDataUrl. async.
  destruct (Js.getTruthy (fontDataUrlCache st) u) as [cached|] eqn:Hc.
  { by intros [= <- <-]. }
  destruct (net (fetchLog st) u) as [|status d']; [done|].
  destruct (ok status); simpl; [|done].
  intros [= <- <-] Hd. simpl. by apply getTruthy_insert.
Qed.

Lemma urlToDataUrl_hit net u st d :
  Js.getTruthy (fontDataUrlCache st) u = Some d →
  urlToDataUrl net u st = (Returned d, st).
Proof. intros Hc. unfold urlToDataUrl. async. by rewrite Hc. Qed.

(** X4. Once [urlToDataUrl] has returned a non-empty data URL for a URL,
    every later call for that URL, after any number of builds and whatever
    the network has become, returns the same data URL and leaves the state,
    the log of requests included, as it is. *)
Theorem data_url_is_memoized net net' u st d st1 st2 :
  urlToDataUrl net u st = (Returned d, st1) →
  d ≠ "" →
  later st1 st2 →
  urlToDataUrl net' u st2 = (Returned d, st2).
Proof.
  intros Hcall Hd (Hkeep & _)%later_keeps.
  apply urlToDataUrl_hit, Hkeep. by eapply urlToDataUrl_cached.
Qed.

Lemma inlineFontFace_cached net rule st css st' :
  inlineFontFace net rule st = (Returned (Some css), st') →
  Js.getTruthy (inlinedFaceCache st') (faceCacheKey rule) = Some css.
Proof.
  intros Hcall. pose proof (inlineFontFace_Some _ _ _ _ _ Hcall) as Hne.
  revert Hcall. rewrite inlineFontFace_eq.
  destruct (Js.getTruthy (inlinedFaceCache st) _) as [cached|] eqn:Hc.
  { by intros [= <- <-]. }
  destruct (pickCandidate _) as [pick|]; [|done].
  destruct (urlToDataUrl _ _ _) as [[d|e] st1]; [|done].
  intros [= Hcss <-]. rewrite Hcss. unfold withInlinedFace, setInlinedFace.
  simpl. by apply getTruthy_insert.
Qed.

(** X5. [inlineFontFace] memoizes by the rule's family, weight, style and
    unicode-range alone: once it has returned a text for a rule, every later
    call for any rule with the same key, whatever that rule's [src],
    returns that same text, without parsing, fetching or changing the
    state. *)
Theorem inlined_face_is_shared_by_key net net' a b st css st1 st2 :
  inlineFontFace net a st = (Returned (Some css), st1) →
  faceCacheKey b = faceCacheKey a →
  later st1 st2 →
  inlineFontFace net' b st2 = (Returned (Some css), st2).
Proof.
  intros Hcall Hkey (_ & Hkeep & _)%later_keeps.
  apply inlineFontFace_cached, Hkeep in Hcall.
  by rewrite inlineFontFace_eq, Hkey, Hcall.
Qed.

(** X6. A non-empty result of [buildFontEmbedCSS] is memoized by the key
    of the variant set alone: every later call whose variant set produces
    the same key returns it again without any work, whatever the style
    sheets, the network and the subtree have become. *)
Theorem result_is_memoized_by_key
    net net' document document' root root' st out st1 st2 :
  buildFontEmbedCSS net document root st = (Returned out, st1) →
  out ≠ "" →
  embedKey (collectUsedTriples root') = embedKey (collectUsedTriples root) →
  later st1 st2 →
  buildFontEmbedCSS net' document' root' st2 = (Returned out, st2).
Proof.
  intros Hcall Hout Hkey (_ & _ & Hkeep & _)%later_keeps.
  rewrite buildFontEmbedCSS_eq in Hcall.
  case_bool_decide as Hsize; [by simplify_eq|].
  assert (Hstored : Js.getTruthy (embedCssForTriplesCache st1)
                      (embedKey (collectUsedTriples root)) = Some out).
  { destruct (Js.getTruthy (embedCssForTriplesCache st) _) as [cached|] eqn:Hc.
    { by simplify_eq. }
    rewrite rebuild_eq in Hcall.
    destruct (inlineAll _ _ _ _) as [[parts|e] st0]; [|done].
    injection Hcall as Hjoin <-. rewrite Hjoin.
    unfold withEmbedCss, setEmbedCss. simpl. by apply getTruthy_insert. }
  rewrite buildFontEmbedCSS_eq.
  rewrite bool_decide_eq_false_2.
  - by rewrite Hkey, (Hkeep _ _ Hstored).
  - rewrite size_zero_empty. eapply same_key_not_empty; [|exact Hkey].
    by rewrite <- size_zero_empty.
Qed.

(** ** The shape of what is built *)

Lemma wellFormed_initial : wellFormed initialState.
Proof. split; intros k v; simpl; by rewrite lookup_empty. Qed.

Lemma inlineFontFace_wellFormed net rule st r st' :
  wellFormed st →
  inlineFontFace net rule st = (r, st') →
  wellFormed st' ∧ ∀ css, r = Returned (Some css) → isRendered css.
Proof.
  intros [Hinl Hemb]. rewrite inlineFontFace_eq.
  destruct (Js.getTruthy (inlinedFaceCache st) _) as [cached|] eqn:Hc.
  { intros [= <- <-]. split; [done|]. intros css [= <-].
    apply getTruthy_Some in Hc as [Hc _]. by eapply Hinl. }
  destruct (pickCandidate _) as [pick|]; [|by intros [= <- <-]].
  destruct (urlToDataUrl net (url pick) st) as [[d|e] st1] eqn:Hu;
    apply urlToDataUrl_footprint in Hu as (Hinl1 & Hemb1 & _).
  - simpl. rewrite inlined_css_rendered. intros [= <- <-].
    assert (Hr : isRendered
              (Spec.rendered (Js.trim (font_family rule)) (Js.trim (font_style rule))
                 (Js.trim (font_weight rule)) (Js.trim (unicode_range rule)) d)).
    { by eexists _, _, _, _, _. }
    split; [|by intros css [= <-]]. split; simpl.
    + intros k v. rewrite Hinl1, lookup_insert. case_decide.
      * by intros [= <-].
      * apply Hinl.
    + intros k v. rewrite Hemb1. apply Hemb.
  - intros [= <- <-]. split; [|done]. split.
    + intros k v. rewrite Hinl1. apply Hinl.
    + intros k v. rewrite Hemb1. apply Hemb.
Qed.

Lemma inlineAll_wellFormed net rules : ∀ parts st r st',
  wellFormed st → Forall isRendered parts →
  inlineAll net rules parts st = (r, st') →
  wellFormed st' ∧ ∀ ps, r = Returned ps → Forall isRendered ps.
Proof.
  induction rules as [|rule rules IH]; intros parts st r st' Hwf Hparts; simpl.
  - intros [= <- <-]. split; [done|]. by intros ps [= <-].
  - unfold bind at 1.
    destruct (inlineFontFace net rule st) as [[css|e] st1] eqn:H1;
      apply inlineFontFace_wellFormed in H1 as [Hwf1 Hcss]; try done.
    + apply IH; [done|]. destruct css as [[|c css]|]; try done.
      apply Forall_app. split; [done|]. constructor; [|done]. by apply Hcss.
    + by intros [= <- <-].
Qed.

Lemma buildFontEmbedCSS_wellFormed net document root st r st' :
  wellFormed st →
  buildFontEmbedCSS net document root st = (r, st') →
  wellFormed st' ∧
  ∀ out, r = Returned out →
         ∃ blocks, out = Js.join (String "010" "") blocks ∧
                   Forall isRendered blocks.
Proof.
  intros Hwf. rewrite buildFontEmbedCSS_eq. case_bool_decide.
  { intros [= <- <-]. split; [done|]. intros out [= <-]. by exists []. }
  destruct (Js.getTruthy (embedCssForTriplesCache st) _) as [cached|] eqn:Hc.
  { intros [= <- <-]. split; [done|]. intros out [= <-].
    apply getTruthy_Some in Hc as [Hc _]. destruct Hwf as [_ Hemb].
    by eapply Hemb. }
  rewrite rebuild_eq.
  destruct (inlineAll _ _ _ _) as [[parts|e] st1] eqn:Hall;
    pose proof (inlineAll_footprint _ _ _ _ _ _ Hall) as (Hemb1 & _);
    apply inlineAll_wellFormed in Hall as [[Hinl Hemb] Hparts]; try done.
  - intros [= <- <-]. specialize (Hparts _ eq_refl).
    split; [|intros out [= <-]; by exists parts]. split; simpl; [done|].
    intros k v. rewrite lookup_insert. case_decide.
    + intros [= <-]. by exists parts.
    + apply Hemb.
  - by intros [= <- <-].
Qed.

Lemma later_wellFormed st st' : wellFormed st → later st st' → wellFormed st'.
Proof.
  intros Hwf. induction 1 as [st|st st1 st2 net document root r _ IH Hb]; [done|].
  by eapply buildFontEmbedCSS_wellFormed in Hb as [? _]; [|apply IH].
Qed.

(** X7. Starting from empty caches, whatever calls came before, what
    [buildFontEmbedCSS] returns is a newline-joined list, possibly empty, of
    rendered font-face rules: each of them names its family, style and
    weight, has a single [src] with format 'woff2', and ends with
    font-display block, whether it was rendered in this call or taken from
    a cache. *)
Theorem result_is_rendered_rules net document root st out st' :
  later initialState st →
  buildFontEmbedCSS net document root st = (Returned out, st') →
  ∃ blocks,
    out = Js.join (String "010" "") blocks ∧
    Forall (λ css, ∃ family fstyle weight uRange dataUrl,
                     css = Spec.rendered family fstyle weight uRange dataUrl)
           blocks.
Proof.
  intros Hlater Hcall.
  apply (later_wellFormed _ _ wellFormed_initial) in Hlater.
  destruct (buildFontEmbedCSS_wellFormed _ _ _ _ _ _ Hlater Hcall) as [_ Hout].
  by apply Hout.
Qed.

(** ** Style sheets and the matcher *)

Lemma readableFaces_app d1 d2 :
  readableFaces (d1 ++ d2) = readableFaces d1 ++ readableFaces d2.
Proof. unfold readableFaces. apply flat_map_app. Qed.

Lemma getMatchingFontFaceRules_app d1 d2 triples :
  getMatchingFontFaceRules (d1 ++ d2) triples
  = getMatchingFontFaceRules d1 triples ++ getMatchingFontFaceRules d2 triples.
Proof.
  rewrite !getMatchingFontFaceRules_eq, readableFaces_app.
  apply List.filter_app.
Qed.

(** X8. Style sheets are matched one after the other and their matches
    concatenated in sheet order, and a sheet whose rules cannot be read
    contributes nothing: with such a sheet anywhere among the others, the
    matched rules, and the whole build, are what they are without it. *)
Theorem unreadable_sheets_are_skipped before after :
  (∀ triples,
     getMatchingFontFaceRules (before ++ after) triples
     = getMatchingFontFaceRules before triples
       ++ getMatchingFontFaceRules after triples) ∧
  (∀ triples,
     getMatchingFontFaceRules (before ++ CrossOrigin :: after) triples
     = getMatchingFontFaceRules (before ++ after) triples) ∧
  (∀ net root st,
     buildFontEmbedCSS net (before ++ CrossOrigin :: after) root st
     = buildFontEmbedCSS net (before ++ after) root st).
Proof.
  assert (Hskip : ∀ triples,
     getMatchingFontFaceRules (before ++ CrossOrigin :: after) triples
     = getMatchingFontFaceRules (before ++ after) triples).
  { intros triples.
    by rewrite !getMatchingFontFaceRules_app,
               (getMatchingFontFaceRules_app [CrossOrigin] after). }
  split; [intros; apply getMatchingFontFaceRules_app|]. split; [exact Hskip|].
  intros net root st. rewrite !buildFontEmbedCSS_eq.
  case_bool_decide; [done|].
  destruct (Js.getTruthy _ _); [done|]. by rewrite !rebuild_eq, Hskip.
Qed.

Lemma elem_of_readableFaces ff document :
  ff ∈ readableFaces document ↔
  ∃ rules, Readable rules ∈ document ∧ FontFaceRule ff ∈ rules.
Proof.
  unfold readableFaces. rewrite list_elem_of_In, in_flat_map. split.
  - intros ([rules|] & Hsheet & Hff); simpl in Hff; [|done].
    exists rules. split; [by apply list_elem_of_In|].
    apply in_flat_map in Hff as ([ff'|] & Hrule & Hin); simpl in Hin; [|done].
    destruct Hin as [->|[]]. by apply list_elem_of_In.
  - intros (rules & Hsheet%list_elem_of_In & Hrule%list_elem_of_In).
    exists (Readable rules). split; [done|]. simpl.
    apply in_flat_map. exists (FontFaceRule ff). split; [done|]. by left.
Qed.

(** X9. A font-face rule is matched exactly when it stands in a readable
    style sheet, names a family (once trimmed and stripped of its quotes),
    and its family, normalized weight and style, joined by two bars and put
    in lower case, equal the lower case of one of the wanted triples. *)
Theorem matched_rules_characterised document triples ff :
  ff ∈ getMatchingFontFaceRules document triples ↔
  (∃ rules, Readable rules ∈ document ∧ FontFaceRule ff ∈ rules) ∧
  ruleFamily ff ≠ "" ∧
  ∃ t, t ∈ triples ∧
       Js.toLowerCase (ruleFamily ff +:+ "||" +:+ ruleWeight ff +:+ "||" +:+
                       ruleStyle ff)
       = Js.toLowerCase t.
Proof.
  rewrite getMatchingFontFaceRules_eq, list_elem_of_In, filter_In.
  rewrite <- list_elem_of_In, elem_of_readableFaces.
  unfold wanted, ruleKey.
  destruct (String.eqb_spec (ruleFamily ff) "") as [Hnil|Hne].
  - split; [by intros [_ ?]|]. by intros (_ & ? & _).
  - rewrite bool_decide_eq_true, elem_of_map. split.
    + intros [Hsheet (t & Heq & Ht)]. split; [done|]. split; [done|]. by exists t.
    + intros (Hsheet & _ & t & Ht & Heq). split; [done|]. by exists t.
Qed.

(** ** The tree walk and the collector *)

Lemma HTMLElement_rect' (P : HTMLElement → Prop) :
  (∀ cs children, Forall P children → P (Element cs children)) →
  ∀ el, P el.
Proof.
  intros Hnode. fix IH 1. intros [cs children]. apply Hnode.
  induction children as [|child children IHc]; constructor; [apply IH|exact IHc].
Qed.

Lemma elem_of_treeWalk x cs children :
  x ∈ treeWalk (Element cs children) ↔
  x = Element cs children ∨ ∃ child, child ∈ children ∧ x ∈ treeWalk child.
Proof.
  simpl. rewrite elem_of_cons, list_elem_of_In, in_flat_map.
  split; intros [?|(child & Hc & Hx)]; auto; right; exists child;
    by rewrite ?list_elem_of_In in *.
Qed.

Lemma treeWalk_root root : root ∈ treeWalk root.
Proof. destruct root. apply list_elem_of_here. Qed.

Lemma treeWalk_descendant root : ∀ el x,
  el ∈ treeWalk root → x ∈ treeWalk el → x ∈ treeWalk root.
Proof.
  induction root as [cs children IH] using HTMLElement_rect'.
  intros el x Hel Hx. apply elem_of_treeWalk in Hel as [->|(child & Hc & Hel)].
  - done.
  - apply elem_of_treeWalk. right. exists child. split; [done|].
    rewrite Forall_forall in IH. by eapply IH.
Qed.

(** X10. The root itself and every element below it contribute: the
    variants collected from the subtree of any element the walk of [root]
    visits are among those collected from [root]. *)
Theorem subtree_variants_are_included root el :
  el ∈ treeWalk root →
  collectUsedTriples el ⊆ collectUsedTriples root.
Proof.
  intros Hel t (x & Hx & Hv)%collectUsedTriples_spec.
  apply collectUsedTriples_spec. exists x. split; [|done].
  by eapply treeWalk_descendant.
Qed.

(** X11. The collected set does not depend on the order of the children or
    on how often a child is repeated: two elements with the same resolved
    style whose lists of children have the same members collect the same
    variants. *)
Theorem children_order_is_irrelevant cs children children' :
  (∀ child, child ∈ children ↔ child ∈ children') →
  collectUsedTriples (Element cs children)
  = collectUsedTriples (Element cs children').
Proof.
  intros Hsame. apply set_eq. intros t. rewrite !collectUsedTriples_spec.
  assert (Hone : ∀ kids kids',
    (∀ child, child ∈ kids → child ∈ kids') →
    (∃ x, x ∈ treeWalk (Element cs kids) ∧ variantOf (getComputedStyle x) = Some t) →
    ∃ x, x ∈ treeWalk (Element cs kids') ∧ variantOf (getComputedStyle x) = Some t).
  { intros kids kids' Hsub (x & Hx & Hv).
    apply elem_of_treeWalk in Hx as [->|(child & Hc & Hx)].
    - exists (Element cs kids'). split; [apply treeWalk_root|done].
    - exists x. split; [|done]. apply elem_of_treeWalk. right.
      exists child. split; [by apply Hsub|done]. }
  split; apply Hone; intros child; apply Hsame.
Qed.

Lemma split_app_sep sep a b :
  Regex.allChars (λ c, negb (Ascii.eqb c sep)) a = true →
  Js.split sep (a +:+ String sep b) = a :: Js.split sep b.
Proof.
  induction a as [|c a IH]; simpl.
  - intros _. rewrite ?sapp_nil_l. simpl. by rewrite Ascii.eqb_refl.
  - intros [Hc Ha]%andb_true_iff. rewrite ?sapp_cons. simpl.
    apply negb_true_iff in Hc. by rewrite Hc, IH.
Qed.

Lemma split_no_sep sep a :
  Regex.allChars (λ c, negb (Ascii.eqb c sep)) a = true →
  Js.split sep a = [a].
Proof.
  induction a as [|c a IH]; simpl; [done|].
  intros [Hc Ha]%andb_true_iff. apply negb_true_iff in Hc.
  by rewrite Hc, IH.
Qed.

(** X12. Only the first family of the resolved list counts: whatever
    follows the first comma, fallback families included, changes nothing
    in what the element contributes. *)
Theorem fallback_families_are_ignored first rest weight fstyle :
  Regex.allChars (λ c, negb (Ascii.eqb c ",")) first = true →
  ∀ triples children children',
    collectOne triples
      (Element (style (first +:+ "," +:+ rest) weight fstyle) children)
    = collectOne triples (Element (style first weight fstyle) children').
Proof.
  intros Hfirst triples children children'.
  unfold collectOne. simpl.
  change ("," +:+ rest) with (String "," rest).
  rewrite split_app_sep, (split_no_sep _ first) by done. simpl. done.
Qed.

(** ** Quotes *)

Lemma dropLastQuote_snoc t q :
  Js.isQuote q = true → Regex.dropLastQuote (t +:+ String q "") = t.
Proof.
  intros Hq. induction t as [|c t IH].
  - rewrite sapp_nil_l. simpl. by rewrite Hq.
  - rewrite sapp_cons. simpl. rewrite IH.
    destruct t; by rewrite ?sapp_nil_l, ?sapp_cons.
Qed.

Lemma dropLastQuote_id s :
  (∀ t c, s = t +:+ String c "" → Js.isQuote c = false) →
  Regex.dropLastQuote s = s.
Proof.
  induction s as [|c s IH]; intros Hlast; [done|]. simpl.
  destruct s as [|c' s].
  - by rewrite (Hlast "" c).
  - f_equal. apply IH. intros t c0 Heq. apply (Hlast (String c t) c0).
    by rewrite sapp_cons, <- Heq.
Qed.

(** X13. Stripping quotes undoes quoting: a string wrapped in two quote
    characters, of either kind and not necessarily the same, comes back as
    it was, whatever it contains; and a string that neither begins nor ends
    with a quote character is left as it is. *)
Theorem stripQuotes_unquotes q q' t :
  Js.isQuote q = true →
  Js.isQuote q' = true →
  Regex.stripQuotes (String q (t +:+ String q' "")) = t ∧
  ∀ s, (∀ c s', s = String c s' → Js.isQuote c = false) →
       (∀ s' c, s = s' +:+ String c "" → Js.isQuote c = false) →
       Regex.stripQuotes s = s.
Proof.
  intros Hq Hq'. split.
  - unfold Regex.stripQuotes. rewrite Hq. by apply dropLastQuote_snoc.
  - intros [|c s] Hfirst Hlast; [done|]. unfold Regex.stripQuotes.
    rewrite (Hfirst c s eq_refl). by apply dropLastQuote_id.
Qed.

(** X14. Every variant in the collected set is a family, a weight and a
    style joined by two bars, where the family is neither empty nor taken
    for generic, the weight is never the keyword "normal" or "bold", and the
    style is never empty. *)
Theorem collected_variants_are_normalized root t :
  t ∈ collectUsedTriples root →
  ∃ family weight fstyle,
    t = family +:+ "||" +:+ weight +:+ "||" +:+ fstyle ∧
    family ≠ "" ∧ Regex.testGeneric family = false ∧
    weight ≠ "normal" ∧ weight ≠ "bold" ∧
    fstyle ≠ "".
Proof.
  intros (el & _ & Hv)%collectUsedTriples_spec. revert Hv.
  set (cs := getComputedStyle el). unfold variantOf.
  destruct (String.eqb_spec (firstFamily cs) "") as [|Hfam]; [done|].
  destruct (Regex.testGeneric (firstFamily cs)) eqn:Hgen; [done|].
  simpl. intros [= <-].
  exists (firstFamily cs), (elementWeight cs), (elementStyle cs).
  split; [done|]. split; [done|]. split; [done|].
  unfold elementWeight, elementStyle, Spec.normalizeWeight.
  repeat split.
  - repeat case_decide; congruence.
  - repeat case_decide; congruence.
  - by destruct (Js.trim _).
Qed.

(** ** What the pattern captures *)

Lemma matchHere_captures re : ∀ s caps n,
  Regex.matchHere re s = Some (caps, n) → acceptsWith re (Js.take n s) caps.
Proof.
  induction re as [|[l|cls lo hi capture] re IH]; intros s caps n; simpl.
  - intros [= <- <-]. by destruct s.
  - destruct (Js.startsWith l s) eqn:Hl; [|done].
    destruct (Regex.matchHere re _) as [[caps' n']|] eqn:Hre; [|done].
    simpl. intros [= <- <-]. apply IH in Hre.
    exists (Js.take n' (Js.drop (String.length l) s)). split; [|done].
    rewrite take_add. f_equal.
    rewrite (startsWith_drop _ _ Hl) at 1. apply take_app_length.
  - intros (j & [Hlo Hj] & Htry)%backtrack_Some.
    destruct (Regex.matchHere re _) as [[caps' n']|] eqn:Hre; [|done].
    simpl in Htry. injection Htry as <- <-. apply IH in Hre.
    destruct (run_take _ _ _ _ Hj) as (Hall & Hlen & Hhi).
    exists (Js.take j s), (Js.take n' (Js.drop j s)), caps'.
    rewrite Hlen. split; [apply take_add|done].
Qed.

Lemma matchAllFrom_each re m : ∀ s skip,
  m ∈ Regex.matchAllFrom re s skip →
  ∃ t n, Regex.matchHere re t = Some (m, n).
Proof.
  induction s as [|c s IH]; intros skip; simpl; [by intros ?%elem_of_nil|].
  destruct skip as [|skip]; [|apply IH].
  destruct (Regex.matchHere re (String c s)) as [[caps n]|] eqn:Hre; [|apply IH].
  intros [->|Hm]%elem_of_cons; [by exists (String c s), n|by eapply IH].
Qed.

Lemma srcPattern_captures w caps :
  acceptsWith Regex.srcPattern w caps →
  ∃ u f, caps = [u; f] ∧
         u ≠ "" ∧ Regex.allChars Regex.notCloseParen u = true ∧
         f ≠ "" ∧ Regex.allChars Regex.notQuote f = true.
Proof.
  unfold Regex.srcPattern. simpl.
  intros (v1 & _ & u & v2 & c2 & _ & Hu & Hulen & (v3 & _ &
            ws & v4 & c4 & _ & _ & _ & (v5 & _ &
            q1 & v6 & c6 & _ & _ & _ & (f & v7 & c7 & _ & Hf & Hflen &
            (q2 & v8 & c8 & _ & _ & _ & (v9 & _ & _ & ->) & ->) & ->) & ->) & ->) & ->).
  exists u, f. repeat split; try done; by apply length_pos_ne.
Qed.

Lemma allChars_dropLastQuote P s :
  Regex.allChars P s = true → Regex.allChars P (Regex.dropLastQuote s) = true.
Proof.
  induction s as [|c s IH]; [done|]. simpl.
  intros [Hc Hs]%andb_true_iff. destruct s as [|c' s].
  - by destruct (Js.isQuote c); simpl; rewrite ?Hc.
  - change (Regex.allChars P (String c (Regex.dropLastQuote (String c' s))) = true).
    simpl. rewrite Hc. by apply IH.
Qed.

Lemma allChars_stripQuotes P s :
  Regex.allChars P s = true → Regex.allChars P (Regex.stripQuotes s) = true.
Proof.
  destruct s as [|c s]; [done|]. unfold Regex.stripQuotes.
  destruct (Js.isQuote c); [|apply allChars_dropLastQuote].
  simpl. intros [_ Hs]%andb_true_iff. by apply allChars_dropLastQuote.
Qed.

Lemma notQuote_lowerChar c : Regex.notQuote (Js.lowerChar c) = Regex.notQuote c.
Proof.
  assert (H : forallb (λ c, Bool.eqb (Regex.notQuote (Js.lowerChar c))
                                     (Regex.notQuote c))
                (map ascii_of_nat (seq 0 256)) = true) by (vm_compute; reflexivity).
  by apply allAscii_spec with (b := c), Bool.eqb_prop in H.
Qed.

Lemma allChars_notQuote_toLowerCase s :
  Regex.allChars Regex.notQuote s = true →
  Regex.allChars Regex.notQuote (Js.toLowerCase s) = true.
Proof.
  induction s as [|c s IH]; [done|]. simpl.
  intros [Hc Hs]%andb_true_iff. by rewrite notQuote_lowerChar, Hc, IH.
Qed.

(** X15. Every candidate parsed from a [src] value has a reference without
    closing parenthesis and a format hint that is not empty, is in lower
    case and holds no quote character. *)
Theorem parsed_candidates_are_clean src c :
  c ∈ parseSrc src →
  Regex.allChars Regex.notCloseParen (url c) = true ∧
  format c ≠ "" ∧
  Js.toLowerCase (format c) = format c ∧
  Regex.allChars Regex.notQuote (format c) = true.
Proof.
  intros Hc. pose proof (parseSrc_format_lower _ _ Hc) as Hlow.
  unfold parseSrc, Regex.matchAll in Hc.
  apply list_elem_of_In, in_map_iff in Hc as (m & <- & Hm%list_elem_of_In).
  apply matchAllFrom_each in Hm as (t & n & Hm).
  apply matchHere_captures, srcPattern_captures in Hm
    as (u & f & -> & Hu & Hup & Hf & Hfq).
  simpl in *. split; [by apply allChars_stripQuotes|].
  split; [by rewrite toLowerCase_nil|]. split; [done|].
  by apply allChars_notQuote_toLowerCase.
Qed.

(** ** Parsing a serialized [src] *)

Lemma backtrack_first {A} (try : nat → option A) lo k r :
  lo ≤ k → try k = Some r → Regex.backtrack try lo k = Some r.
Proof.
  intros Hlo Htry. destruct k as [|k]; simpl.
  - assert (lo = 0) as -> by lia. simpl. by rewrite Htry.
  - destruct (S k <? lo) eqn:Hlt; [apply Nat.ltb_lt in Hlt; lia|].
    by rewrite Htry.
Qed.

Lemma run_exact cls x c rest :
  Regex.allChars cls x = true → cls c = false →
  Regex.run cls None (x +:+ String c rest) = String.length x.
Proof.
  intros Hx Hc. induction x as [|a x IH]; simpl.
  - rewrite ?sapp_nil_l. simpl. by rewrite Hc.
  - simpl in Hx. apply andb_true_iff in Hx as [Ha Hx].
    rewrite ?sapp_cons. simpl. by rewrite Ha, IH.
Qed.

Lemma matchHere_Lit l re rest caps n :
  Regex.matchHere re rest = Some (caps, n) →
  Regex.matchHere (Regex.Lit l :: re) (l +:+ rest)
  = Some (caps, String.length l + n).
Proof.
  intros Hre. simpl.
  rewrite (proj2 (startsWith_spec l (l +:+ rest))) by by exists rest.
  by rewrite drop_app_length, Hre.
Qed.

Lemma matchHere_Rep cls lo capture re x c rest caps n :
  Regex.allChars cls x = true → cls c = false → lo ≤ String.length x →
  Regex.matchHere re (String c rest) = Some (caps, n) →
  Regex.matchHere (Regex.Rep cls lo None capture :: re) (x +:+ String c rest)
  = Some (if capture then x :: caps else caps, String.length x + n).
Proof.
  intros Hx Hc Hlo Hre. simpl. rewrite run_exact by done.
  apply backtrack_first; [done|].
  by rewrite drop_app_length, take_app_length, Hre.
Qed.

Lemma matchHere_quote re q rest caps n :
  Js.isQuote q = true →
  Regex.matchHere re rest = Some (caps, n) →
  Regex.matchHere (Regex.Rep Js.isQuote 0 (Some 1) false :: re) (String q rest)
  = Some (caps, S n).
Proof.
  intros Hq Hre. simpl. rewrite Hq.
  assert (Regex.run Js.isQuote (Some 0) rest = 0) as -> by by destruct rest.
  simpl. by rewrite Hre.
Qed.

Lemma notQuote_quote q : Js.isQuote q = true → Regex.notQuote q = false.
Proof. unfold Regex.notQuote. by intros ->. Qed.

(** A serialized source at the head of a string is matched whole, with its
    reference and its hint as captures. *)
Lemma matchHere_renderSource q c rest :
  Js.isQuote q = true → plainSource c →
  Regex.matchHere Regex.srcPattern (renderSource q c +:+ rest)
  = Some ([url c; format c], String.length (renderSource q c)).
Proof.
  intros Hq (Hu & Hup & Hf & Hfq).
  assert (Hlen : ∀ s, s ≠ "" → 1 ≤ String.length s).
  { intros [|a s]; simpl; [done|lia]. }
  pose proof (matchHere_Lit ")" [] rest [] 0 eq_refl) as H8.
  apply (matchHere_quote _ q) in H8; [|done].
  apply (matchHere_Rep Regex.notQuote 1 true _ (format c)) in H8;
    [|done|by apply notQuote_quote|by apply Hlen].
  apply (matchHere_quote _ q) in H8; [|done].
  apply (matchHere_Lit "format(") in H8.
  change ("format(" +:+ String q (format c +:+ String q (")" +:+ rest)))
    with (String "f" ("ormat(" +:+ String q (format c +:+ String q (")" +:+ rest))))
    in H8.
  apply (matchHere_Rep Js.isWhiteSpace 0 false _ " ") in H8; [|done|done|simpl; lia].
  apply (matchHere_Lit ")") in H8.
  change (")" +:+ " " +:+ String "f" ("ormat(" +:+ String q (format c +:+ String q (")" +:+ rest))))
    with (String ")" (" format(" +:+ String q (format c +:+ String q (")" +:+ rest))))
    in H8.
  apply (matchHere_Rep Regex.notCloseParen 1 true _ (url c)) in H8;
    [|done|done|by apply Hlen].
  apply (matchHere_Lit "url(") in H8.
  assert (Hs : renderSource q c +:+ rest
               = "url(" +:+ url c +:+
                 String ")" (" format(" +:+
                   String q (format c +:+ String q (")" +:+ rest)))).
  { unfold renderSource.
    repeat (rewrite sapp_assoc || rewrite sapp_cons). reflexivity. }
  rewrite Hs. unfold Regex.srcPattern. rewrite H8. f_equal. f_equal.
  unfold renderSource.
  repeat (rewrite length_sapp || (progress simpl)). lia.
Qed.

Lemma matchAllFrom_skip re x rest :
  Regex.matchAllFrom re (x +:+ rest) (String.length x)
  = Regex.matchAllFrom re rest 0.
Proof.
  induction x as [|c x IH]; [by destruct rest|].
  rewrite sapp_cons. simpl. apply IH.
Qed.

Lemma matchAllFrom_hit re s tail caps :
  s ≠ "" →
  Regex.matchHere re (s +:+ tail) = Some (caps, String.length s) →
  Regex.matchAllFrom re (s +:+ tail) 0 = caps :: Regex.matchAllFrom re tail 0.
Proof.
  destruct s as [|a s]; [done|]. intros _. rewrite sapp_cons. intros Hm.
  simpl. rewrite Hm. simpl. by rewrite matchAllFrom_skip.
Qed.

Lemma matchAllFrom_miss re a s :
  Regex.matchHere re (String a s) = None →
  Regex.matchAllFrom re (String a s) 0 = Regex.matchAllFrom re s 0.
Proof. intros Hm. simpl. by rewrite Hm. Qed.

Lemma matchAll_renderSrc q sources :
  Js.isQuote q = true → Forall plainSource sources →
  Regex.matchAll Regex.srcPattern (renderSrc q sources)
  = map (λ c, [url c; format c]) sources.
Proof.
  intros Hq. unfold Regex.matchAll, renderSrc, Js.join.
  induction 1 as [|c sources Hc Hall IH]; [done|].
  assert (Hhead : ∀ tail,
    Regex.matchAllFrom Regex.srcPattern (renderSource q c +:+ tail) 0
    = [url c; format c] :: Regex.matchAllFrom Regex.srcPattern tail 0).
  { intros tail. apply matchAllFrom_hit; [|by apply matchHere_renderSource].
    unfold renderSource. by rewrite sapp_cons. }
  destruct sources as [|c' sources].
  - change (Regex.matchAllFrom Regex.srcPattern (renderSource q c) 0
            = [[url c; format c]]).
    by rewrite <- (sapp_nil_r (renderSource q c)), Hhead.
  - change (Regex.matchAllFrom Regex.srcPattern
              (renderSource q c +:+
               String "," (String " "
                 (String.concat ", " (map (renderSource q) (c' :: sources))))) 0
            = [url c; format c] :: map (λ c, [url c; format c]) (c' :: sources)).
    rewrite Hhead. f_equal.
    rewrite !matchAllFrom_miss by reflexivity. exact IH.
Qed.

(** X16. Parsing undoes serialization: for a list of sources whose
    references are not empty and hold no closing parenthesis and whose
    hints are not empty and hold no quote character, written one after the
    other as url(reference) format(hint) with the hint between two quote
    characters of either kind and a comma and a space between sources,
    [parseSrc] returns the sources in their order, each with the quotes
    around its reference stripped and its hint in lower case. *)
Theorem parseSrc_of_serialized q sources :
  Js.isQuote q = true →
  Forall plainSource sources →
  parseSrc (renderSrc q sources)
  = map (λ c, {| url := Regex.stripQuotes (url c);
                 format := Js.toLowerCase (format c) |}) sources.
Proof.
  intros Hq Hall. unfold parseSrc.
  rewrite matchAll_renderSrc by done. by rewrite map_map.
Qed.

(** ** Where requests come from *)

Lemma pickCandidate_elem urls pick :
  pickCandidate urls = Some pick → pick ∈ urls.
Proof.
  unfold pickCandidate.
  destruct (List.find _ urls) as [c|] eqn:Hfind.
  - intros [= <-]. apply find_some in Hfind as [Hin _].
    by apply list_elem_of_In.
  - destruct urls as [|c urls]; [done|]. intros [= <-]. apply list_elem_of_here.
Qed.

Lemma urlToDataUrl_log net u st r st' :
  urlToDataUrl net u st = (r, st') →
  fetchLog st' = fetchLog st ∨ fetchLog st' = fetchLog st ++ [u].
Proof.
  unfold urlToDataUrl. async.
  destruct (Js.getTruthy _ _); [intros [= <- <-]; by left|].
  destruct (net (fetchLog st) u) as [|status d]; [intros [= <- <-]; by right|].
  destruct (ok status); simpl; intros [= <- <-]; by right.
Qed.

Lemma inlineFontFace_log net rule st r st' :
  inlineFontFace net rule st = (r, st') →
  ∃ new, fetchLog st' = fetchLog st ++ new ∧
         ∀ u, u ∈ new → ∃ c, c ∈ parseSrc (src rule) ∧ url c = u.
Proof.
  assert (Hnil : ∃ new, fetchLog st = fetchLog st ++ new ∧
            ∀ u, u ∈ new → ∃ c, c ∈ parseSrc (src rule) ∧ url c = u).
  { exists []. rewrite app_nil_r. split; [done|]. by intros u ?%elem_of_nil. }
  rewrite inlineFontFace_eq.
  destruct (Js.getTruthy _ _); [by intros [= <- <-]|].
  destruct (pickCandidate _) as [pick|] eqn:Hpick; [|by intros [= <- <-]].
  apply pickCandidate_elem in Hpick.
  destruct (urlToDataUrl net (url pick) st) as [[d|e] st1] eqn:Hu;
    apply urlToDataUrl_log in Hu as [Hlog|Hlog];
    intros [= <- <-]; simpl; rewrite Hlog; try done;
    exists [url pick]; (split; [done|]);
    intros u ->%list_elem_of_singleton; by exists pick.
Qed.

Lemma inlineAll_log net rules : ∀ parts st r st',
  inlineAll net rules parts st = (r, st') →
  ∃ new, fetchLog st' = fetchLog st ++ new ∧
         ∀ u, u ∈ new →
              ∃ rule c, rule ∈ rules ∧ c ∈ parseSrc (src rule) ∧ url c = u.
Proof.
  induction rules as [|rule rules IH]; intros parts st r st'; simpl.
  - intros [= <- <-]. exists []. rewrite app_nil_r. split; [done|].
    by intros u ?%elem_of_nil.
  - unfold bind at 1.
    destruct (inlineFontFace net rule st) as [[css|e] st1] eqn:H1;
      apply inlineFontFace_log in H1 as (new1 & Hlog1 & Hfrom1).
    + intros (new2 & Hlog2 & Hfrom2)%IH. exists (new1 ++ new2).
      split; [by rewrite Hlog2, Hlog1, app_assoc|].
      intros u [Hu|Hu]%elem_of_app.
      * destruct (Hfrom1 _ Hu) as (c & Hc & Hurl).
        exists rule, c. split; [apply list_elem_of_here|done].
      * destruct (Hfrom2 _ Hu) as (rule' & c & Hrule & Hc & Hurl).
        exists rule', c. split; [by apply list_elem_of_further|done].
    + intros [= <- <-]. exists new1. split; [done|].
      intros u Hu. destruct (Hfrom1 _ Hu) as (c & Hc & Hurl).
      exists rule, c. split; [apply list_elem_of_here|done].
Qed.

(** X17. A call of [buildFontEmbedCSS] requests nothing but sources of
    matched rules: every URL it adds to the log is the reference of a
    candidate parsed from the [src] of a font-face rule that matches a
    variant of the subtree. *)
Theorem requests_are_sources_of_matched_rules
    net document root st r st' new u :
  buildFontEmbedCSS net document root st = (r, st') →
  fetchLog st' = fetchLog st ++ new →
  u ∈ new →
  ∃ rule c,
    rule ∈ getMatchingFontFaceRules document (collectUsedTriples root) ∧
    c ∈ parseSrc (src rule) ∧
    url c = u.
Proof.
  rewrite buildFontEmbedCSS_eq. intros Hcall Hlog Hu.
  assert (Hsame : (r, st') = (r, st) → False).
  { intros [= ->]. rewrite <- (app_nil_r (fetchLog st)) in Hlog at 1.
    apply app_inv_head in Hlog as <-. by apply elem_of_nil in Hu. }
  case_bool_decide; [by destruct Hsame; simplify_eq|].
  destruct (Js.getTruthy _ _); [by destruct Hsame; simplify_eq|].
  rewrite rebuild_eq in Hcall.
  destruct (inlineAll _ _ _ _) as [[parts|e] st1] eqn:Hall;
    apply inlineAll_log in Hall as (new' & Hlog' & Hfrom);
    injection Hcall as <- <-; simpl in Hlog; rewrite Hlog' in Hlog;
    apply app_inv_head in Hlog as <-; by apply Hfrom.
Qed.

(** ** Instances of the further properties *)

Lemma caches_only_grow_witness :
  let st1 := (buildFontEmbedCSS echoNetwork interDocument interRoot initialState).2 in
  let st2 := (buildFontEmbedCSS failingNetwork boldDocument boldRoot st1).2 in
  Js.getTruthy (fontDataUrlCache st1) "https://example/a.woff2"
  = Some "data:font/woff2;base64,https://example/a.woff2" ∧
  Js.getTruthy (fontDataUrlCache st2) "https://example/a.woff2"
  = Some "data:font/woff2;base64,https://example/a.woff2".
Proof.
  intros st1 st2. split; [vm_compute; reflexivity|].
  destruct (caches_only_grow st1 st2 "https://example/a.woff2"
              "data:font/woff2;base64,https://example/a.woff2") as (Hkeep & _).
  - apply (later_build _ _ _ failingNetwork boldDocument boldRoot
             (buildFontEmbedCSS failingNetwork boldDocument boldRoot st1).1
             (later_now st1)).
    vm_compute. reflexivity.
  - apply Hkeep. vm_compute. reflexivity.
Defined.

Lemma requests_are_misses_witness :
  length ["https://example/a.woff2"]
  ≤ length (getMatchingFontFaceRules interDocument (collectUsedTriples interRoot)) ∧
  ∀ u, u ∈ ["https://example/a.woff2"] →
       Js.getTruthy (fontDataUrlCache initialState) u = None.
Proof.
  apply (requests_are_misses echoNetwork interDocument interRoot initialState
           (buildFontEmbedCSS echoNetwork interDocument interRoot initialState).1
           (buildFontEmbedCSS echoNetwork interDocument interRoot initialState).2).
  - vm_compute. reflexivity.
  - vm_compute. reflexivity.
Defined.

Lemma throws_only_for_a_failed_request_witness :
  ∃ pre u,
    fetchLog (buildFontEmbedCSS failingNetwork interDocument interRoot initialState).2
    = fetchLog initialState ++ pre ++ [u] ∧
    failure failingNetwork (fetchLog initialState ++ pre) u
    = Some (FetchFailed "https://example/a.woff2" 404).
Proof.
  apply (throws_only_for_a_failed_request failingNetwork interDocument interRoot
           initialState (Thrown (FetchFailed "https://example/a.woff2" 404))).
  vm_compute. reflexivity.
Defined.

Lemma data_url_is_memoized_witness :
  let st1 := (urlToDataUrl echoNetwork "https://example/a.woff2" initialState).2 in
  urlToDataUrl failingNetwork "https://example/a.woff2" st1
  = (Returned "data:font/woff2;base64,https://example/a.woff2", st1).
Proof.
  intros st1.
  apply (data_url_is_memoized echoNetwork failingNetwork _ initialState _ st1).
  - vm_compute. reflexivity.
  - discriminate.
  - apply later_now.
Defined.

Lemma inlined_face_is_shared_by_key_witness :
  let st1 := (inlineFontFace echoNetwork interRule initialState).2 in
  src interFallbackRule ≠ src interRule ∧
  inlineFontFace failingNetwork interFallbackRule st1
  = (Returned (Some interCss), st1).
Proof.
  intros st1. split; [discriminate|].
  apply (inlined_face_is_shared_by_key echoNetwork failingNetwork interRule
           interFallbackRule initialState interCss st1).
  - vm_compute. reflexivity.
  - vm_compute. reflexivity.
  - apply later_now.
Defined.

Lemma result_is_memoized_by_key_witness :
  let st1 := (buildFontEmbedCSS echoNetwork interDocument interRoot initialState).2 in
  buildFontEmbedCSS failingNetwork [] interRoot st1 = (Returned interCss, st1).
Proof.
  intros st1.
  apply (result_is_memoized_by_key echoNetwork failingNetwork interDocument []
           interRoot interRoot initialState interCss st1).
  - vm_compute. reflexivity.
  - discriminate.
  - reflexivity.
  - apply later_now.
Defined.

Lemma result_is_rendered_rules_witness :
  ∃ blocks,
    interCss = Js.join (String "010" "") blocks ∧
    Forall (λ css, ∃ family fstyle weight uRange dataUrl,
                     css = Spec.rendered family fstyle weight uRange dataUrl)
           blocks.
Proof.
  apply (result_is_rendered_rules echoNetwork interDocument interRoot initialState
           interCss
           (buildFontEmbedCSS echoNetwork interDocument interRoot initialState).2).
  - apply later_now.
  - vm_compute. reflexivity.
Defined.

Lemma subtree_variants_are_included_witness :
  collectUsedTriples leafB
  ⊆ collectUsedTriples (Element (style "A" "400" "normal") [leafA; leafB]).
Proof.
  apply subtree_variants_are_included.
  simpl. do 2 apply list_elem_of_further. apply list_elem_of_here.
Defined.

Lemma children_order_is_irrelevant_witness :
  collectUsedTriples (Element (style "A" "400" "normal") [leafA; leafB])
  = collectUsedTriples (Element (style "A" "400" "normal") [leafB; leafA; leafB]).
Proof.
  apply children_order_is_irrelevant. intros child.
  rewrite !elem_of_cons, !elem_of_nil. tauto.
Defined.

Lemma fallback_families_are_ignored_witness :
  collectOne ∅ (Element (style "Inter, Helvetica, sans-serif" "400" "normal") [leafA])
  = collectOne ∅ (Element (style "Inter" "400" "normal") []).
Proof.
  apply (fallback_families_are_ignored "Inter" " Helvetica, sans-serif").
  reflexivity.
Defined.

Lemma stripQuotes_unquotes_witness :
  Regex.stripQuotes (String "'" ("Inter" +:+ String "034" "")) = "Inter".
Proof.
  apply (proj1 (stripQuotes_unquotes "'" "034" "Inter" eq_refl eq_refl)).
Defined.

Lemma collected_variants_are_normalized_witness :
  ∃ family weight fstyle,
    "B||700||italic" = family +:+ "||" +:+ weight +:+ "||" +:+ fstyle ∧
    family ≠ "" ∧ Regex.testGeneric family = false ∧
    weight ≠ "normal" ∧ weight ≠ "bold" ∧
    fstyle ≠ "".
Proof.
  apply (collected_variants_are_normalized leafB).
  unfold leafB. rewrite collectUsedTriples_leaf.
  change (variantOf (style "B" "bold" "italic")) with (Some "B||700||italic").
  by apply elem_of_singleton.
Defined.

Lemma parsed_candidates_are_clean_witness :
  Regex.allChars Regex.notCloseParen "https://example/a.woff2" = true ∧
  "woff2" ≠ "" ∧
  Js.toLowerCase "woff2" = "woff2" ∧
  Regex.allChars Regex.notQuote "woff2" = true.
Proof.
  apply (parsed_candidates_are_clean (src interRule)
           {| url := "https://example/a.woff2"; format := "woff2" |}).
  apply list_elem_of_In. vm_compute. right. left. reflexivity.
Defined.

Lemma parseSrc_of_serialized_witness :
  parseSrc (renderSrc "034" twoSources)
  = [ {| url := "https://example/a.woff"; format := "woff" |};
      {| url := "https://example/a.woff2"; format := "woff2" |} ].
Proof.
  apply (parseSrc_of_serialized "034" twoSources).
  - reflexivity.
  - repeat constructor; vm_compute; congruence.
Defined.

Lemma requests_are_sources_of_matched_rules_witness :
  ∃ rule c,
    rule ∈ getMatchingFontFaceRules interDocument (collectUsedTriples interRoot) ∧
    c ∈ parseSrc (src rule) ∧
    url c = "https://example/a.woff2".
Proof.
  apply (requests_are_sources_of_matched_rules echoNetwork interDocument interRoot
           initialState
           (buildFontEmbedCSS echoNetwork interDocument interRoot initialState).1
           (buildFontEmbedCSS echoNetwork interDocument interRoot initialState).2
           ["https://example/a.woff2"]).
  - vm_compute. reflexivity.
  - vm_compute. reflexivity.
  - apply list_elem_of_here.
Defined.
